(** * Spectractor: the chromatic PSF core of [spectractor/extractor/psf.py]

    A shallow embedding of the PSF shape model ([PSF], [MoffatGauss]), of the
    profile/polynomial transform and the bound checker of [ChromaticPSF], of
    the amplitude stage of [ChromaticPSF1DFitWorkspace.simulate] and
    [ChromaticPSF2DFitWorkspace.simulate], of [ChromaticPSF1D.evaluate], and
    of the labels of the polynomial vector with the background crop that the
    fit workspaces apply through them.

    Numbers.  The Python code computes with numpy float64 arrays.  Here a
    number is an exact rational ([Q]); equality of computed numbers is [==]
    ([Qeq]).  Rounding and the overflow of large magnitudes are outside the
    model.  The divisions of [MoffatGauss.evaluate] and those that build the
    weights and the regularisation of the fit workspaces are made by the code
    without a test of the divisor: the definitions test it and give no number
    ([DividedByZero], or [None]) when it is zero, since numpy then continues
    with inf or NaN.  The transcendental functions of numpy ([**]
    with a real exponent, [np.exp], [np.sqrt]) and [np.pi] are parameters of
    the definitions that use them.  An infinite bound ([np.inf], [-np.inf]) is
    a constructor of the bound types below.  A Python exception is the [None]
    of an [option] (or the [Raised] of an [outcome]). *)

From Stdlib Require Import String.
From Stdlib Require Import List Arith Lia Bool QArith Qabs Lqa DecimalString.
Import ListNotations.
Open Scope Q_scope.

(* ------------------------------------------------------------------ *)
(** ** Numbers, comparisons and arrays *)

Definition Qlt_bool (x y : Q) : bool := negb (Qle_bool y x).
Definition Qgt_bool (x y : Q) : bool := Qlt_bool y x.

(** [np.maximum] and [np.minimum] on scalars, and [np.clip(a, lo, hi)],
    which numpy computes as [minimum(maximum(a, lo), hi)]. *)
Definition maximum (a b : Q) : Q := if Qlt_bool a b then b else a.
Definition minimum (a b : Q) : Q := if Qlt_bool b a then b else a.
Definition clip (a lo hi : Q) : Q := minimum (maximum a lo) hi.

(** [np.sum] of a one-dimensional array. *)
Definition sum (l : list Q) : Q := fold_right Qplus 0 l.

(** [np.mean]; the mean of an empty array is not a number, here 0/0. *)
Definition mean (l : list Q) : Q := sum l / inject_Z (Z.of_nat (length l)).

(** [np.isclose(a, 0)] with numpy's defaults [rtol=1e-05], [atol=1e-08]:
    [|a - 0| <= atol + rtol * |0|]. *)
Definition isclose0 (a : Q) : bool := Qle_bool (Qabs a) (1 # 100000000).

(** Elementwise combination of two arrays of the same shape. *)
Fixpoint map2 {A B C : Type} (f : A -> B -> C) (l : list A) (m : list B) : list C :=
  match l, m with
  | a :: l', b :: m' => f a b :: map2 f l' m'
  | _, _ => []
  end.

(** The [.T] of a two-dimensional array given as a list of rows. *)
Fixpoint transpose (rows : list (list Q)) : list (list Q) :=
  match rows with
  | [] => []
  | [r] => map (fun v => [v]) r
  | r :: rest => map2 cons r (transpose rest)
  end.

(** [a[i] = v] on a list: nothing changes when [i] is out of range (the
    callers below only write at indices they have read). *)
Fixpoint set_nth (i : nat) (v : Q) (l : list Q) : list Q :=
  match l, i with
  | [], _ => []
  | _ :: t, O => v :: t
  | h :: t, S j => h :: set_nth j v t
  end.

(** The ends of a bound pair [(min, max)]: a number or an infinity. *)
Inductive lower : Type := NegInf | Lo (q : Q).
Inductive upper : Type := PosInf | Hi (q : Q).
Definition bounds : Type := (lower * upper)%type.

(** [v < min] and [v > max] as numpy evaluates them. *)
Definition lt_lower (v : Q) (b : lower) : bool :=
  match b with NegInf => false | Lo q => Qlt_bool v q end.
Definition gt_upper (v : Q) (b : upper) : bool :=
  match b with PosInf => false | Hi q => Qgt_bool v q end.

(** [2 * max_half_width], with [2 * np.inf = np.inf]. *)
Definition twice (h : upper) : upper :=
  match h with PosInf => PosInf | Hi q => Hi (2 * q) end.

(** [v] lies inside the interval of a bound pair. *)
Definition inside (v : Q) (b : bounds) : Prop :=
  match fst b with NegInf => True | Lo q => q <= v end /\
  match snd b with PosInf => True | Hi q => v <= q end.

(** The bound pair is an interval: [min <= max]. *)
Definition ordered (b : bounds) : Prop :=
  match fst b, snd b with
  | Lo l, Hi h => l <= h
  | _, _ => True
  end.

(* ------------------------------------------------------------------ *)
(** ** What a method call gives back *)

(** Arrays of one, two and three dimensions, and Python's [None]. *)
Inductive value : Type :=
  | VNone
  | Arr1 (a : list Q)
  | Arr2 (a : list (list Q))
  | Arr3 (a : list (list (list Q))).

(** What a call gives back: an exception, a value, or, after a
    floating-point division by zero, no array of numbers: numpy goes on with
    inf or NaN entries (and a RuntimeWarning), and a division of two Python
    numbers raises ZeroDivisionError. *)
Inductive outcome : Type :=
  | Raised
  | DividedByZero
  | Returned (v : value).

(** The entries of an array when every one of them is a number. *)
Fixpoint all_some {A : Type} (l : list (option A)) : option (list A) :=
  match l with
  | [] => Some []
  | None :: _ => None
  | Some a :: l' =>
      match all_some l' with
      | Some r => Some (a :: r)
      | None => None
      end
  end.

(** The [pixels] argument of [evaluate]: a one-dimensional array, an array
    of shape [(2, Nx, Ny)] holding the X and the Y abscissae, or an array of
    any other shape. *)
Inductive pixel_array : Type :=
  | Pix1D (y : list Q)
  | Pix2D (x y : list (list Q))
  | PixOther.

(* ------------------------------------------------------------------ *)
(** ** class PSF *)

(** The instance fields of a PSF object (the logger apart). *)
Record PSF_obj : Type := mkPSF {
  p : list Q;
  param_names : list string;
  axis_names : list string;
  bounds_soft : list bounds;
  bounds_hard : list bounds;
  p_default : list Q;
  max_half_width : upper
}.

Definition set_p (self : PSF_obj) (q : list Q) : PSF_obj :=
  mkPSF q (param_names self) (axis_names self) (bounds_soft self)
        (bounds_hard self) (p_default self) (max_half_width self).

Definition zeros_like1 (a : list Q) : list Q := map (fun _ => 0) a.
Definition zeros_like2 (a : list (list Q)) : list (list Q) := map zeros_like1 a.

Module PSF.

(** [PSF.__init__]: the bound arrays start as [[[]]], a list that holds no
    bound pair. *)
Definition init : PSF_obj :=
  mkPSF []
        ["amplitude"; "x_mean"; "y_mean"; "saturation"]%string
        ["$A$"; "$x_0$"; "$y_0$"; "saturation"]%string
        [] []
        [1; 0; 0; 1]
        PosInf.

(** [PSF.evaluate(self, pixels, p=None)]: the new object state and the
    returned value. *)
Definition evaluate (self : PSF_obj) (pixels : pixel_array)
           (p_arg : option (list Q)) : PSF_obj * outcome :=
  let self := match p_arg with Some q => set_p self q | None => self end in
  match pixels with
  | Pix2D x y => (self, Returned (Arr3 [zeros_like2 x; zeros_like2 y]))
  | Pix1D y => (self, Returned (Arr1 (zeros_like1 y)))
  | PixOther => (self, Returned VNone)
  end.

(** [PSF.apply_max_width_to_bounds]: [pass]. *)
Definition apply_max_width_to_bounds (self : PSF_obj)
           (max_half_width_arg : option upper) : PSF_obj := self.

End PSF.

(* ------------------------------------------------------------------ *)
(** ** class MoffatGauss(PSF) *)

Module MoffatGauss.

Definition default_bounds : list bounds :=
  [ (Lo 0, PosInf); (NegInf, PosInf); (NegInf, PosInf); (Lo (1 # 10), PosInf);
    (Lo (11 # 10), Hi 10); (Lo (-1), Hi 0); (Lo (1 # 10), PosInf); (Lo 0, PosInf) ].

(** [MoffatGauss.__init__(self, p=None)]. *)
Definition init (p_arg : option (list Q)) : PSF_obj :=
  let p_default := [1; 0; 0; 3; 2; 0; 1; 1] in
  mkPSF (match p_arg with Some q => q | None => p_default end)
        ["amplitude"; "x_mean"; "y_mean"; "gamma"; "alpha"; "eta_gauss";
         "stddev"; "saturation"]%string
        ["$A$"; "$x_0$"; "$y_0$"; "$\gamma$"; "$\alpha$"; "$\eta$";
         "$\sigma$"; "saturation"]%string
        default_bounds default_bounds
        p_default
        (max_half_width PSF.init).

(** The bound array both assignments of [apply_max_width_to_bounds] build. *)
Definition width_bounds (h : upper) : list bounds :=
  [ (Lo 0, PosInf); (NegInf, PosInf); (Lo 0, twice h); (Lo (1 # 10), h);
    (Lo (11 # 10), Hi 10); (Lo (-1), Hi 0); (Lo (1 # 10), h); (Lo 0, PosInf) ].

(** [MoffatGauss.apply_max_width_to_bounds(self, max_half_width=None)]. *)
Definition apply_max_width_to_bounds (self : PSF_obj)
           (max_half_width_arg : option upper) : PSF_obj :=
  let h := match max_half_width_arg with
           | Some h => h
           | None => max_half_width self
           end in
  mkPSF (p self) (param_names self) (axis_names self)
        (width_bounds h) (width_bounds h) (p_default self) h.

Section Evaluate.

(** [base ** exponent], [np.exp] and [np.pi]. *)
Variable power : Q -> Q -> Q.
Variable exp : Q -> Q.
Variable pi : Q.

(** The unnormalised Moffat plus Gauss profile at squared distance [rr],
    where neither [gamma * gamma] nor [2. * stddev * stddev] is zero. *)
Definition profile (gamma alpha eta_gauss stddev rr : Q) : Q :=
  let rr_gg := rr / (gamma * gamma) in
  power (1 + rr_gg) (- alpha) + eta_gauss * exp (- (rr / (2 * stddev * stddev))).

(** One entry of the array [a]: the entry [rr] is divided by
    [gamma * gamma] and by [2. * stddev * stddev], whatever they are. *)
Definition shape (gamma alpha eta_gauss stddev rr : Q) : option Q :=
  if Qeq_bool (gamma * gamma) 0 || Qeq_bool (2 * stddev * stddev) 0 then None
  else Some (profile gamma alpha eta_gauss stddev rr).

(** The array [rr] of the branch [pixels.ndim == 3]. *)
Definition squared_distances (x_mean y_mean : Q) (x y : list (list Q)) : list (list Q) :=
  map2 (map2 (fun xi yi => (xi - x_mean) * (xi - x_mean)
                           + (yi - y_mean) * (yi - y_mean))) x y.

(** [(np.pi * gamma * gamma) / (alpha - 1) + eta_gauss * 2 * np.pi * stddev
    * stddev], the norm of the branch [pixels.ndim == 3]. *)
Definition analytic_norm (gamma alpha eta_gauss stddev : Q) : Q :=
  (pi * gamma * gamma) / (alpha - 1) + eta_gauss * 2 * pi * stddev * stddev.

(** The branch [pixels.ndim == 1]; [np.gradient] raises on fewer than
    two pixels, and its first entry is [y[1] - y[0]].  The division by the
    integral is made only when the integral is not zero. *)
Definition evaluate_1d (amplitude y_mean gamma alpha eta_gauss stddev saturation : Q)
           (y : list Q) : outcome :=
  match y with
  | y0 :: y1 :: _ =>
      match all_some (map (fun yi => shape gamma alpha eta_gauss stddev
                                           ((yi - y_mean) * (yi - y_mean))) y) with
      | None => DividedByZero
      | Some a =>
          let dx := y1 - y0 in
          let integral := sum a * dx in
          let norm := if Qeq_bool integral 0 then amplitude
                      else amplitude / integral in
          Returned (Arr1 (map (fun ai => clip (ai * norm) 0 saturation) a))
      end
  | _ => Raised
  end.

(** The branch [pixels.ndim == 3 and pixels.shape[0] == 2]: the code
    divides by [alpha - 1] and by the norm without a test. *)
Definition evaluate_2d (amplitude x_mean y_mean gamma alpha eta_gauss stddev
                        saturation : Q) (x y : list (list Q)) : outcome :=
  let rr := squared_distances x_mean y_mean x y in
  match all_some (map (fun row => all_some (map (shape gamma alpha eta_gauss stddev) row))
                      rr) with
  | None => DividedByZero
  | Some a =>
      if Qeq_bool (alpha - 1) 0 then DividedByZero
      else
        let norm := analytic_norm gamma alpha eta_gauss stddev in
        if Qeq_bool norm 0 then DividedByZero
        else
          Returned (Arr2 (transpose
            (map (map (fun ai => clip (ai * (amplitude / norm)) 0 saturation)) a)))
  end.

(** [MoffatGauss.evaluate(self, pixels, p=None)]: the new object state
    and the outcome.  Unpacking [self.p] raises unless it holds exactly
    eight numbers. *)
Definition evaluate (self : PSF_obj) (pixels : pixel_array)
           (p_arg : option (list Q)) : PSF_obj * outcome :=
  let self := match p_arg with Some q => set_p self q | None => self end in
  match p self with
  | [amplitude; x_mean; y_mean; gamma; alpha; eta_gauss; stddev; saturation] =>
      match pixels with
      | Pix2D x y =>
          (self, evaluate_2d amplitude x_mean y_mean gamma alpha eta_gauss
                             stddev saturation x y)
      | Pix1D y =>
          (self, evaluate_1d amplitude y_mean gamma alpha eta_gauss stddev
                             saturation y)
      | PixOther => (self, Returned VNone)
      end
  | _ => (self, Raised)
  end.

End Evaluate.

End MoffatGauss.

(* ------------------------------------------------------------------ *)
(** ** numpy helpers used by ChromaticPSF *)

Definition Qnat (n : nat) : Q := inject_Z (Z.of_nat n).

(** [np.arange(n)] on indices. *)
Definition arange (n : nat) : list nat := seq 0 n.

(** [np.linspace(-1, 1, n)]: [n] evenly spaced pixels, both ends included. *)
Definition linspace (n : nat) : list Q :=
  map (fun i => -1 + Qnat i * (2 / Qnat (n - 1))) (arange n).

(** [poly_params[a : a + n]]: a slice never raises, it is cut at the end. *)
Definition slice {A : Type} (a n : nat) (l : list A) : list A := firstn n (skipn a l).

(** The loop of [np.polynomial.legendre.legval] (Clenshaw recursion) over
    the coefficients [c[-3], c[-4], ..., c[0]]; [nd] counts down from
    [len(c) - 1]. *)
Fixpoint clenshaw (x : Q) (rest : list Q) (c0 c1 : Q) : Q * Q :=
  match rest with
  | [] => (c0, c1)
  | ci :: rest' =>
      let nd := Qnat (S (List.length rest)) in
      clenshaw x rest' (ci - (c1 * (nd - 1)) / nd) (c0 + (c1 * x * (2 * nd - 1)) / nd)
  end.

(** [legval(x, c)] at one point: a Legendre series with coefficients [c].
    On an empty coefficient array numpy reads [c[-2]] and raises. *)
Definition legval1 (x : Q) (c : list Q) : option Q :=
  match rev c with
  | [] => None
  | [a] => Some (a + 0 * x)
  | c1 :: c0 :: rest =>
      let '(c0', c1') := clenshaw x rest c0 c1 in Some (c0' + c1' * x)
  end.

(** [legval(pixels, c)] on an array of points. *)
Definition legval (pixels : list Q) (c : list Q) : option (list Q) :=
  match c with
  | [] => None
  | _ => Some (map (fun x => match legval1 x c with Some v => v | None => 0 end) pixels)
  end.

(** A profile table [profile_params], kept by columns: the [k]-th element is
    [profile_params[:, k]], one number per dispersion pixel. *)
Definition table : Type := list (list Q).

(** [self.degrees], a dict from parameter names to polynomial degrees. *)
Definition degrees_dict : Type := list (string * nat).

Fixpoint dict_get (d : degrees_dict) (key : string) : option nat :=
  match d with
  | [] => None
  | (k, v) :: d' => if String.eqb k key then Some v else dict_get d' key
  end.

Fixpoint dict_set (d : degrees_dict) (key : string) (v : nat) : degrees_dict :=
  match d with
  | [] => [(key, v)]
  | (k, w) :: d' => if String.eqb k key then (k, v) :: d' else (k, w) :: dict_set d' key v
  end.

(** Sequencing of calls that may raise. *)
Definition bind {A B : Type} (m : option A) (f : A -> option B) : option B :=
  match m with Some a => f a | None => None end.
Notation "x <- m ;; k" := (bind m (fun x => k))
  (at level 61, m at next level, right associativity).

(* ------------------------------------------------------------------ *)
(** ** class ChromaticPSF *)

(** The fields of a ChromaticPSF object that the transform and the bound
    checker read; [table_len] is [len(self.table)]. *)
Record ChromaticPSF_obj : Type := mkChromaticPSF {
  psf : PSF_obj;
  deg : nat;
  degrees : degrees_dict;
  Nx : nat;
  Ny : nat;
  table_len : nat;
  saturation : Q
}.

Module ChromaticPSF.

(** [set_polynomial_degrees(self, deg)]. *)
Definition set_polynomial_degrees (names : list string) (deg : nat) : degrees_dict :=
  dict_set (fold_left (fun d key => dict_set d key deg) names []) "saturation" 0%nat.

(** [ChromaticPSF.__init__] with [file_name=''] and a saturation level. *)
Definition init (psf : PSF_obj) (Nx Ny deg : nat) (saturation : Q) : ChromaticPSF_obj :=
  mkChromaticPSF psf deg (set_polynomial_degrees (param_names psf) deg)
                 Nx Ny Nx saturation.

Section ToPoly.

(** [np.polynomial.legendre.legfit(x, y, deg, w=w)]: the coefficients of
    a weighted least-squares Legendre fit, or an exception. *)
Variable legfit : list Q -> list Q -> nat -> list Q -> option (list Q).

(** The second loop of [from_profile_params_to_poly_params]: one fit per
    parameter that is not the amplitude, weighted by the amplitude column
    ([None] when the first loop found none); [profile_params[:, k]] raises
    when the table has fewer columns than the PSF has names. *)
Fixpoint fit_columns (degs : degrees_dict) (pixels : list Q) (amplitude : option (list Q))
         (names : list string) (cols : table) : option (list Q) :=
  match names, cols with
  | [], _ => Some []
  | _ :: _, [] => None
  | name :: names', col :: cols' =>
      if String.eqb name "amplitude"
      then fit_columns degs pixels amplitude names' cols'
      else
        weights <- amplitude ;;
        d <- dict_get degs name ;;
        fit <- legfit pixels col d weights ;;
        rest <- fit_columns degs pixels amplitude names' cols' ;;
        Some (fit ++ rest)
  end.

(** The first loop: the amplitude column, the last one named
    ['amplitude'] if several are. *)
Fixpoint amplitude_columns (names : list string) (cols : table)
  : option (list (list Q)) :=
  match names, cols with
  | [], _ => Some []
  | _ :: _, [] => None
  | name :: names', col :: cols' =>
      rest <- amplitude_columns names' cols' ;;
      Some ((if String.eqb name "amplitude" then [col] else []) ++ rest)
  end.

(** [from_profile_params_to_poly_params(self, profile_params)].  When no
    parameter is named ['amplitude'] the weights are [np.copy(None)], on
    which [legfit] raises. *)
Definition from_profile_params_to_poly_params (self : ChromaticPSF_obj)
           (profile_params : table) : option (list Q) :=
  let pixels := linspace (table_len self) in
  amps <- amplitude_columns (param_names (psf self)) profile_params ;;
  let amplitude := match rev amps with [] => None | a :: _ => Some a end in
  fits <- fit_columns (degrees self) pixels amplitude
                      (param_names (psf self)) profile_params ;;
  Some (concat amps ++ fits).

End ToPoly.

(** The first loop of [from_poly_params_to_profile_params]: the columns in
    the order of [param_names], with [shift] the number of coefficients
    already consumed. *)
Fixpoint expand_columns (degs : degrees_dict) (length : nat) (pixels poly_params : list Q)
         (shift : nat) (names : list string) : option table :=
  match names with
  | [] => Some []
  | name :: names' =>
      if String.eqb name "amplitude" then
        let col := if (length <? List.length poly_params)%nat
                   then firstn length poly_params
                   else repeat 1 length in
        rest <- expand_columns degs length pixels poly_params shift names' ;;
        Some (col :: rest)
      else
        d <- dict_get degs name ;;
        col <- (if (length <? List.length poly_params)%nat
                then legval pixels (slice (length + shift) (d + 1) poly_params)
                else
                  let p := slice shift (d + 1) poly_params in
                  if (0 <? List.length p)%nat then legval pixels p
                  else Some (repeat 0 length)) ;;
        rest <- expand_columns degs length pixels poly_params (shift + d + 1) names' ;;
        Some (col :: rest)
  end.

(** The two masked assignments on one entry of a column. *)
Definition clip_hard (b : bounds) (v : Q) : Q :=
  let v1 := match fst b with
            | Lo q => if Qle_bool v q then q else v
            | NegInf => v
            end in
  match snd b with
  | Hi q => if Qgt_bool v1 q then q else v1
  | PosInf => v1
  end.

(** The loop under [if apply_bounds:]; [self.psf.bounds_hard[k]] raises
    when the PSF holds fewer bound pairs than parameter names. *)
Fixpoint clip_columns (hard : list bounds) (names : list string) (cols : table)
         {struct names} : option table :=
  match names with
  | [] => Some cols
  | _ :: names' =>
      match hard, cols with
      | b :: hard', col :: cols' =>
          rest <- clip_columns hard' names' cols' ;;
          Some (map (clip_hard b) col :: rest)
      | _, _ => None
      end
  end.

(** [from_poly_params_to_profile_params(self, poly_params, apply_bounds)]. *)
Definition from_poly_params_to_profile_params (self : ChromaticPSF_obj)
           (poly_params : list Q) (apply_bounds : bool) : option table :=
  let length := table_len self in
  let pixels := linspace length in
  profile_params <- expand_columns (degrees self) length pixels poly_params 0
                                   (param_names (psf self)) ;;
  if apply_bounds
  then clip_columns (bounds_hard (psf self)) (param_names (psf self)) profile_params
  else Some profile_params.


(** The penalty update of one violated side in [check_bounds]:
    [penalty += excess], then [penalty /= |mean(p)|] unless the mean is close
    to zero. *)
Definition add_penalty (penalty excess : Q) (col : list Q) : Q :=
  let penalty := penalty + excess in
  if negb (isclose0 (mean col)) then penalty / Qabs (mean col) else penalty.

(** The state of the loop of [check_bounds]:
    [(in_bounds, penalty, outbound_parameter_name)]. *)
Definition check_state : Type := (bool * Q * string)%type.

(** The body of the loop for the parameter [name] at index [k], whose
    column is [col]. *)
Definition check_param (soft : list bounds) (noise_level : Q) (k : nat)
           (name : string) (col : list Q) (st : check_state) : option check_state :=
  let '(in_bounds, penalty, outbound) := st in
  if String.eqb name "amplitude" then
    if existsb (fun v => Qlt_bool v (- noise_level)) col
    then Some (false,
               penalty + Qabs (sum (filter (fun v => Qlt_bool v (- noise_level)) col)),
               (outbound ++ name ++ " ")%string)
    else Some st
  else if String.eqb name "saturation" then Some st
  else
    b <- nth_error soft k ;;
    let st1 :=
      match snd b with
      | Hi hi =>
          if existsb (fun v => Qgt_bool v hi) col
          then (false,
                add_penalty penalty
                  (sum (map (fun v => v - hi) (filter (fun v => Qgt_bool v hi) col))) col,
                (outbound ++ name ++ " ")%string)
          else st
      | PosInf => st
      end in
    let '(in_bounds1, penalty1, outbound1) := st1 in
    match fst b with
    | Lo lo =>
        if existsb (fun v => Qlt_bool v lo) col
        then Some (false,
                   add_penalty penalty1
                     (sum (map (fun v => lo - v) (filter (fun v => Qlt_bool v lo) col))) col,
                   (outbound1 ++ name ++ " ")%string)
        else Some st1
    | NegInf => Some st1
    end.

Fixpoint check_loop (soft : list bounds) (noise_level : Q) (k : nat)
         (names : list string) (cols : table) (st : check_state) : option check_state :=
  match names, cols with
  | [], _ => Some st
  | _ :: _, [] => None
  | name :: names', col :: cols' =>
      st' <- check_param soft noise_level k name col st ;;
      check_loop soft noise_level (S k) names' cols' st'
  end.

(** [check_bounds(self, poly_params, noise_level=0)]. *)
Definition check_bounds (self : ChromaticPSF_obj) (poly_params : list Q)
           (noise_level : Q) : option check_state :=
  profile_params <- from_poly_params_to_profile_params self poly_params false ;;
  st <- check_loop (bounds_soft (psf self)) noise_level 0
                   (param_names (psf self)) profile_params (true, 0, ""%string) ;;
  let '(in_bounds, penalty, outbound) := st in
  Some (in_bounds, penalty * (Qnat (Nx self) * Qnat (Ny self)), outbound).

End ChromaticPSF.

(* ------------------------------------------------------------------ *)
(** ** The amplitude stage of the fit workspaces *)

(** [self.amplitude_priors_method]. *)
Inductive prior : Type := noprior | positive | smooth | psf1d | fixed.

(** [u @ v] on vectors. *)
Definition dot (u v : list Q) : Q := sum (map2 Qmult u v).

(** [amplitude_params[amplitude_params < 0] = 0]. *)
Definition clip_negative (amplitude_params : list Q) : list Q :=
  map (fun v => if Qlt_bool v 0 then 0 else v) amplitude_params.

(** [np.where(amplitude_params < 0)[0]]. *)
Definition where_negative (amplitude_params : list Q) : list nat :=
  filter (fun i => Qlt_bool (nth i amplitude_params 0) 0)
         (arange (List.length amplitude_params)).

(** [i in null_indices]. *)
Definition is_in (i : nat) (null_indices : list nat) : bool :=
  existsb (Nat.eqb i) null_indices.

(** One inner loop of the smoothing: [for i in indices: v = a[i]; if i not
    in null_indices: break], started with [v = init]. *)
Fixpoint scan (a : list Q) (null_indices : list nat) (init : Q) (indices : list nat) : Q :=
  match indices with
  | [] => init
  | i :: rest =>
      let v := nth i a 0 in
      if is_in i null_indices then scan a null_indices v rest else v
  end.

(** [range(index, min(index + 10, Nx))]. *)
Definition range_right (index Nx : nat) : list nat :=
  seq index (Nat.min (index + 10) Nx - index).

(** [range(index, max(0, index - 10), -1)]: down to, and without,
    [max(0, index - 10)]. *)
Definition range_left (index : nat) : list nat :=
  rev (seq (S (Nat.max 0 (index - 10))) (index - Nat.max 0 (index - 10))).

(** The body of [for index in null_indices:], on the array being rewritten
    in place. *)
Definition smooth_step (Nx : nat) (null_indices : list nat) (a : list Q) (index : nat)
  : list Q :=
  let right := scan a null_indices (nth index a 0) (range_right index Nx) in
  let left := scan a null_indices (nth index a 0) (range_left index) in
  set_nth index ((1 # 2) * (right + left)) a.

(** The branch [amplitude_priors_method == "smooth"]. *)
Definition smooth_negative (Nx : nat) (amplitude_params : list Q) : list Q :=
  let null_indices := where_negative amplitude_params in
  fold_left (smooth_step Nx null_indices) null_indices amplitude_params.

(** The post-hoc treatment shared by both workspaces once the raw
    least-squares amplitudes are known (methods other than psf1d, fixed). *)
Definition apply_prior (method : prior) (Nx : nat) (amplitude_params : list Q) : list Q :=
  match method with
  | positive => clip_negative amplitude_params
  | smooth => smooth_negative Nx amplitude_params
  | _ => amplitude_params
  end.

(** The branch [amplitude_priors_method == "fixed"], the same in both
    workspaces: [np.min] of an empty selection raises. *)
Definition fixed_amplitudes (amplitude_priors : list Q) : option (list Q * list Q) :=
  match map Qabs (filter (fun v => Qlt_bool 0 v) amplitude_priors) with
  | [] => None
  | m :: ms =>
      let floor := fold_left minimum ms m in
      Some (amplitude_priors,
            map (fun v => if Qle_bool v 0 then floor else v) amplitude_priors)
  end.

Module ChromaticPSF1DFitWorkspace.

(** The fields [simulate] reads for the amplitudes: per column [x] the
    diagonal of [self.W[x]] and the vector [self.W_dot_data[x]]; the
    background noise level; the prior data. *)
Record workspace : Type := mkWorkspace {
  ws_Nx : nat;
  W : list (list Q);
  W_dot_data : list (list Q);
  bgd_std : Q;
  amplitude_priors_method : prior;
  Q_diag : list Q;
  Q_dot_A0 : list Q;
  amplitude_priors : list Q
}.

(** [self.W] and [self.W_dot_data] as [__init__] builds them from the
    columns of the error and data arrays; [1. / (self.err * self.err)]
    divides by zero where an error is zero. *)
Definition weights (err : list (list Q)) : option (list (list Q)) :=
  if existsb (existsb (fun e => Qeq_bool (e * e) 0)) err then None
  else Some (map (map (fun e => 1 / (e * e))) err).
Definition weights_dot_data (w data : list (list Q)) : list (list Q) :=
  map2 (map2 Qmult) w data.

(** [M[x].T @ self.W[x] @ M[x]] with [self.W[x]] diagonal. *)
Definition M_dot_W_dot_M (Mx Wx : list Q) : Q := dot (map2 Qmult Mx Wx) Mx.

(** One entry of the diagonal of [cov_matrix] and of [amplitude_params]
    when the method is neither psf1d nor fixed. *)
Definition column_cov (self : workspace) (Mx Wx : list Q) : Q :=
  if Qlt_bool 0 (M_dot_W_dot_M Mx Wx) then 1 / M_dot_W_dot_M Mx Wx
  else (1 # 10) * bgd_std self.

Definition column_amplitude (self : workspace) (Mx Wx WDx : list Q) : Q :=
  if Qlt_bool 0 (M_dot_W_dot_M Mx Wx) then dot Mx WDx / M_dot_W_dot_M Mx Wx
  else (1 # 10) * bgd_std self.

(** The entries when the method is psf1d. *)
Definition column_cov_psf1d (self : workspace) (Mx Wx : list Q) (Qxx : Q) : Q :=
  if Qlt_bool 0 (M_dot_W_dot_M Mx Wx + Qxx) then 1 / (M_dot_W_dot_M Mx Wx + Qxx)
  else (1 # 10) * bgd_std self.

(** Three arrays read at the same column index. *)
Fixpoint map3 {A B C D : Type} (f : A -> B -> C -> D)
         (l : list A) (m : list B) (n : list C) : list D :=
  match l, m, n with
  | a :: l', b :: m', c :: n' => f a b c :: map3 f l' m' n'
  | _, _, _ => []
  end.

(** The amplitude part of [simulate]: from the design matrix [M] (one row
    per column [x] of the spectrogram, [M[x] = psf.evaluate(pixels,
    profile_params[x, :])]) to [(amplitude_params, diagonal of cov_matrix)]. *)
Definition amplitudes (self : workspace) (M : list (list Q))
  : option (list Q * list Q) :=
  match amplitude_priors_method self with
  | fixed => fixed_amplitudes (amplitude_priors self)
  | psf1d =>
      let cov := map3 (column_cov_psf1d self) M (W self) (Q_diag self) in
      Some (map3 (fun c Mx '(WDx, QA0x) => c * (dot Mx WDx + QA0x))
                 cov M (combine (W_dot_data self) (Q_dot_A0 self)),
            cov)
  | method =>
      let cov := map2 (column_cov self) M (W self) in
      let amplitude_params := map3 (column_amplitude self) M (W self) (W_dot_data self) in
      Some (apply_prior method (ws_Nx self) amplitude_params, cov)
  end.

(** [self.amplitude_params_err] from the diagonal of [cov_matrix]. *)
Definition amplitude_params_err (sqrt : Q -> Q) (cov : list Q) : list Q :=
  map (fun c => if Qlt_bool 0 c then sqrt c else 0) cov.

End ChromaticPSF1DFitWorkspace.

Module ChromaticPSF2DFitWorkspace.

Definition matrix : Type := list (list Q).

(** [A @ v] and [A @ B] for matrices given by rows. *)
Definition matvec (A : matrix) (v : list Q) : list Q := map (fun row => dot row v) A.
Definition matmul (A B : matrix) : matrix :=
  map (fun row => map (fun col => dot row col) (transpose B)) A.

(** [np.diag(v)]. *)
Definition diag (v : list Q) : matrix :=
  map (fun i => map (fun j => if Nat.eqb i j then nth i v 0 else 0)
                    (arange (List.length v)))
      (arange (List.length v)).

Section Solve.

(** [np.linalg.inv(np.linalg.cholesky(A))]; the factorisation raises when
    [A] is not positive definite. *)
Variable inv_cholesky : matrix -> option matrix.

(** The amplitude part of [simulate] for the methods other than fixed.
    [Mt] is [M.T]: row [x] is the flattened PSF image of column [x];
    [W] and [W_dot_data] are the flattened weights and weighted data. *)
Definition amplitudes (method : prior) (Nx : nat) (Mt : matrix)
           (W W_dot_data : list Q) (Qm : matrix) (Q_dot_A0 amplitude_priors : list Q)
  : option (list Q * matrix) :=
  match method with
  | fixed =>
      r <- fixed_amplitudes amplitude_priors ;;
      Some (fst r, diag (snd r))
  | psf1d =>
      let W_dot_M_t := map (fun col => map2 Qmult col W) Mt in
      let M_dot_W_dot_M := map (fun row => map (dot row) W_dot_M_t) Mt in
      L <- inv_cholesky (map2 (map2 Qplus) M_dot_W_dot_M Qm) ;;
      let cov_matrix := matmul (transpose L) L in
      Some (matvec cov_matrix (map2 Qplus (matvec Mt W_dot_data) Q_dot_A0), cov_matrix)
  | _ =>
      let W_dot_M_t := map (fun col => map2 Qmult col W) Mt in
      let M_dot_W_dot_M := map (fun row => map (dot row) W_dot_M_t) Mt in
      L <- inv_cholesky M_dot_W_dot_M ;;
      let cov_matrix := matmul (transpose L) L in
      Some (apply_prior method Nx (matvec cov_matrix (matvec Mt W_dot_data)), cov_matrix)
  end.

End Solve.

End ChromaticPSF2DFitWorkspace.

(* ------------------------------------------------------------------ *)
(** ** Vocabulary of the statements *)

(** The fields of a PSF object other than [p]. *)
Definition other_fields (s : PSF_obj) :=
  (param_names s, axis_names s, bounds_soft s, bounds_hard s, p_default s,
   max_half_width s).

(** Every entry of every column of [t] lies inside the bound pair of its
    parameter. *)
Definition all_inside (hard : list bounds) (t : table) : Prop :=
  forall (k : nat) (b : bounds) (col : list Q),
    nth_error hard k = Some b -> nth_error t k = Some col ->
    Forall (fun v => inside v b) col.

(** The number of coefficients that precede those of the [k]-th parameter in
    the shape block of a polynomial vector. *)
Fixpoint coefficient_offset (degs : degrees_dict) (names : list string) (k : nat) : nat :=
  match names, k with
  | name :: names', S k' =>
      (if String.eqb name "amplitude" then 0
       else match dict_get degs name with Some d => d + 1 | None => 0 end)
      + coefficient_offset degs names' k'
  | _, _ => 0
  end%nat.

(** The vector of [n_poly] numbers gives every parameter that is not the
    amplitude a degree and, when it is longer than the table, at least one
    coefficient. *)
Fixpoint has_coefficients (degs : degrees_dict) (length n_poly shift : nat)
         (names : list string) : bool :=
  match names with
  | [] => true
  | name :: names' =>
      if String.eqb name "amplitude"
      then has_coefficients degs length n_poly shift names'
      else match dict_get degs name with
           | None => false
           | Some d =>
               ((n_poly <=? length) || (length + shift <? n_poly))%nat
               && has_coefficients degs length n_poly (shift + d + 1) names'
           end
  end.

(** A Legendre series on the pixels, or zeros where there is no coefficient. *)
Definition legval_or_zeros (length : nat) (pixels c : list Q) : list Q :=
  match legval pixels c with Some v => v | None => repeat 0 length end.

(** The column that the expansion gives the parameter [name] whose
    coefficients start [off] places into the shape block. *)
Definition expanded_column (degs : degrees_dict) (length : nat) (pixels poly_params : list Q)
           (name : string) (off : nat) : list Q :=
  if String.eqb name "amplitude" then
    if (length <? List.length poly_params)%nat
    then firstn length poly_params else repeat 1 length
  else
    match dict_get degs name with
    | Some d =>
        legval_or_zeros length pixels
          (slice ((if (length <? List.length poly_params)%nat then length else 0) + off)
                 (d + 1) poly_params)
    | None => []
    end.

(** The smooth prior in the words of the specification: the nearest entry
    that is not negative within 10 columns to the right of column [j], the
    nearest one within 10 columns to its left, and their average. *)
Definition not_negative_at (a : list Q) (i : nat) : bool :=
  (i <? List.length a)%nat && negb (Qlt_bool (nth i a 0) 0).
Definition nearest_right (a : list Q) (j : nat) : option nat :=
  find (not_negative_at a) (seq (S j) 10).
Definition nearest_left (a : list Q) (j : nat) : option nat :=
  find (not_negative_at a)
       (map (fun d => j - d)%nat (filter (fun d => d <=? j)%nat (seq 1 10))).
Definition specified_smooth_value (a : list Q) (j : nat) : option Q :=
  match nearest_right a j, nearest_left a j with
  | Some r, Some l => Some ((1 # 2) * (nth r a 0 + nth l a 0))
  | _, _ => None
  end.

(** The workspace with another prior method. *)
Definition with_method (self : ChromaticPSF1DFitWorkspace.workspace) (m : prior)
  : ChromaticPSF1DFitWorkspace.workspace :=
  ChromaticPSF1DFitWorkspace.mkWorkspace
    (ChromaticPSF1DFitWorkspace.ws_Nx self) (ChromaticPSF1DFitWorkspace.W self)
    (ChromaticPSF1DFitWorkspace.W_dot_data self) (ChromaticPSF1DFitWorkspace.bgd_std self)
    m (ChromaticPSF1DFitWorkspace.Q_diag self) (ChromaticPSF1DFitWorkspace.Q_dot_A0 self)
    (ChromaticPSF1DFitWorkspace.amplitude_priors self).

(** A workspace of two columns and three rows whose first column has zero
    weights and zero data, with a background noise level of 10. *)
Definition degenerate_workspace : ChromaticPSF1DFitWorkspace.workspace :=
  ChromaticPSF1DFitWorkspace.mkWorkspace
    2 [[0; 0; 0]; [1; 1; 1]] [[0; 0; 0]; [2; 8; 2]] 10 noprior [] [] [].

(** The penalty in the words of the specification: each parameter that is
    neither the amplitude nor the saturation adds the magnitude of its
    soft-bound violation divided by the mean of its own column (left
    undivided when that mean is close to zero); the sum is scaled by the
    number of pixels. *)
Definition violation (b : bounds) (col : list Q) : Q :=
  match snd b with
  | Hi hi => sum (map (fun v => v - hi) (filter (fun v => Qgt_bool v hi) col))
  | PosInf => 0
  end
  + match fst b with
    | Lo lo => sum (map (fun v => lo - v) (filter (fun v => Qlt_bool v lo) col))
    | NegInf => 0
    end.

Definition specified_term (b : bounds) (col : list Q) : Q :=
  if isclose0 (mean col) then violation b col else violation b col / Qabs (mean col).

Fixpoint specified_terms (soft : list bounds) (names : list string) (cols : table) : Q :=
  match soft, names, cols with
  | b :: soft', name :: names', col :: cols' =>
      (if String.eqb name "amplitude" || String.eqb name "saturation" then 0
       else specified_term b col)
      + specified_terms soft' names' cols'
  | _, _, _ => 0
  end.

Definition specified_penalty (self : ChromaticPSF_obj) (profile_params : table) : Q :=
  specified_terms (bounds_soft (psf self)) (param_names (psf self)) profile_params
  * (Qnat (Nx self) * Qnat (Ny self)).

(** Two tables agree entry by entry. *)
Definition table_eq (t1 t2 : table) : Prop := Forall2 (Forall2 Qeq) t1 t2.

(** The value at [x] of the Legendre series with coefficients [c], as
    [legval] computes it. *)
Definition series (x : Q) (c : list Q) : Q :=
  match legval1 x c with Some v => v | None => 0 end.

(** The quantity [legfit] minimises: the sum over the pixels of the squared
    weighted residual [(w * (y - series(x)))^2]. *)
Definition residual (pixels y w c : list Q) : Q :=
  sum (map (fun '(x, yi, wi) => (wi * (yi - series x c)) * (wi * (yi - series x c)))
           (combine (combine pixels y) w)).

(** [c] is a weighted least-squares fit of degree [d] of the column [y]. *)
Definition least_squares_fit (pixels y w : list Q) (d : nat) (c : list Q) : Prop :=
  List.length c = (d + 1)%nat
  /\ forall c' : list Q,
      List.length c' = (d + 1)%nat -> residual pixels y w c <= residual pixels y w c'.

(** The column is a Legendre series of degree at most [d] on the pixels. *)
Definition polynomial_column (pixels : list Q) (d : nat) (col : list Q) : Prop :=
  exists c0 : list Q,
    List.length c0 = (d + 1)%nat /\ Forall2 Qeq (map (fun x => series x c0) pixels) col.

(** [np.count_nonzero(w)]. *)
Definition count_nonzero (w : list Q) : nat :=
  List.length (filter (fun wi => negb (Qeq_bool wi 0)) w).

(** The weights determine a fit of degree [d]: no weight is zero, or at
    least [d + 1] of them are not. *)
Definition enough_weights (w : list Q) (d : nat) : Prop :=
  Forall (fun wi => ~ wi == 0) w \/ (d < count_nonzero w)%nat.

(** A fit for columns of three pixels of which the first has the weight
    zero: the series through the other two values.  On the pixels -1, 0, 1
    the series [c0 + c1 x] takes there the values [c0] and [c0 + c1]. *)
Definition legfit_last_two (pixels y : list Q) (d : nat) (w : list Q) : option (list Q) :=
  match y, d with
  | [_; y1; _], O => Some [y1]
  | [_; y1; y2], S O => Some [y1; y2 - y1]
  | _, _ => None
  end.

(** The fit that returns the zero series, the solution of least norm when
    every weight is zero. *)
Definition legfit_zero (pixels y : list Q) (d : nat) (w : list Q) : option (list Q) :=
  Some (repeat 0 (d + 1)).

(** A fit for columns of three pixels at -1, 0, 1 of which only the last
    has a weight: of the series that take the last value at 1, the one of
    least norm. *)
Definition legfit_last_one (pixels y : list Q) (d : nat) (w : list Q) : option (list Q) :=
  match y, d with
  | [_; _; y2], O => Some [y2]
  | [_; _; y2], S O => Some [y2 / 2; y2 / 2]
  | _, _ => None
  end.

(** The entries of a list are pairwise different numbers. *)
Fixpoint distinct (l : list Q) : Prop :=
  match l with
  | [] => True
  | x :: l' => (forall y, In y l' -> ~ y == x) /\ distinct l'
  end.

(** Polynomials given by the list of their coefficients, lowest degree
    first: value, sum, multiple, and division by [x - r]. *)
Definition peval (m : list Q) (x : Q) : Q := fold_right (fun a acc => a + x * acc) 0 m.

Fixpoint padd (m n : list Q) : list Q :=
  match m, n with
  | [], _ => n
  | _, [] => m
  | a :: m', b :: n' => (a + b) :: padd m' n'
  end.

Definition pscale (k : Q) (m : list Q) : list Q := map (Qmult k) m.

Fixpoint pdiv (r : Q) (m : list Q) : list Q * Q :=
  match m with
  | [] => ([], 0)
  | a :: m' =>
      match m' with
      | [] => ([], a)
      | _ => let '(q, rem) := pdiv r m' in (rem :: q, a + r * rem)
      end
  end.

(** The recursion of [clenshaw] on polynomials in [x], and the polynomial
    whose value at [x] is [series x c]. *)
Fixpoint clenshaw_poly (rest : list Q) (p0 p1 : list Q) : list Q * list Q :=
  match rest with
  | [] => (p0, p1)
  | ci :: rest' =>
      let nd := Qnat (S (List.length rest)) in
      clenshaw_poly rest' (padd [ci] (pscale (- ((nd - 1) / nd)) p1))
                    (padd p0 (pscale ((2 * nd - 1) / nd) (0 :: p1)))
  end.

Definition series_poly (c : list Q) : list Q :=
  match rev c with
  | [] => []
  | [a] => [a]
  | c1 :: c0 :: rest =>
      let '(q0, q1) := clenshaw_poly rest [c0] [c1] in padd q0 (0 :: q1)
  end.

(** [legfit] returns for the column [col] of the parameter [name]
    coefficients of the right number whose series reproduces the column. *)
Definition exactly_fitted (legfit : list Q -> list Q -> nat -> list Q -> option (list Q))
           (degs : degrees_dict) (pixels weights : list Q)
           (name : string) (col : list Q) : Prop :=
  exists (d : nat) (c : list Q),
    dict_get degs name = Some d
    /\ legfit pixels col d weights = Some c
    /\ List.length c = (d + 1)%nat
    /\ Forall2 Qeq (map (fun x => series x c) pixels) col.

(** The column [col] of the parameter [name] has one entry per pixel, is a
    Legendre series of the degree of [name], the weights determine a fit of
    that degree, and [legfit] returns a weighted least-squares fit of that
    degree for the column. *)
Definition fitted_by_least_squares
           (legfit : list Q -> list Q -> nat -> list Q -> option (list Q))
           (degs : degrees_dict) (pixels weights : list Q)
           (name : string) (col : list Q) : Prop :=
  List.length col = List.length pixels
  /\ exists (d : nat) (c : list Q),
      dict_get degs name = Some d
      /\ enough_weights weights d
      /\ legfit pixels col d weights = Some c
      /\ least_squares_fit pixels col weights d c
      /\ polynomial_column pixels d col.

(** Two tables agree entry by entry up to the tolerance [tol]. *)
Definition table_close (tol : Q) (t1 t2 : table) : Prop :=
  Forall2 (Forall2 (fun u v => Qabs (u - v) < tol)) t1 t2.

(* ------------------------------------------------------------------ *)
(** ** Vocabulary of the further properties *)


(** No column of the table violates what [check_bounds] tests: the
    amplitudes are at least [-noise_level] and every entry of a parameter that
    is neither the amplitude nor the saturation lies inside its soft bound
    pair, the pair of the parameter at index [k + i] for the [i]-th name. *)
Definition within_soft (soft : list bounds) (noise_level : Q) (k : nat)
           (names : list string) (cols : table) : Prop :=
  forall (i : nat) (name : string) (col : list Q),
    nth_error names i = Some name -> nth_error cols i = Some col ->
    (name = "amplitude"%string -> Forall (fun v => - noise_level <= v) col)
    /\ (name <> "amplitude"%string -> name <> "saturation"%string ->
        exists b : bounds, nth_error soft (k + i) = Some b /\ Forall (fun v => inside v b) col).


(** The part of [ChromaticPSFFitWorkspace.__init__] and of
    [ChromaticPSF1DFitWorkspace.__init__] that prepares the amplitude solve,
    from the cropped, background-subtracted data and the errors (both given
    by columns [x]), the noise level of the background, the prior method,
    [parameters.PSF_FIT_REG_PARAM] and the polynomial vector of the chromatic
    PSF.  The prior fields are only set, and only read, for the methods psf1d
    and fixed.  The weights [1. / (self.err * self.err)] and the entries
    [1 / np.sum(self.err[:, i] ** 2)] of the regularisation are divisions
    that the code does not guard: there is no workspace of numbers ([None])
    when an error is zero or, for psf1d, when the squared errors of a column
    sum to zero. *)
Definition regularisation (reg : Q) (err : list (list Q))
  : option ChromaticPSF2DFitWorkspace.matrix :=
  if existsb (fun err_x => Qeq_bool (sum (map (fun e => e * e) err_x)) 0) err then None
  else Some (map (map (Qmult reg))
                 (ChromaticPSF2DFitWorkspace.diag
                    (map (fun err_x => 1 / sum (map (fun e => e * e) err_x)) err))).

Definition diagonal (A : ChromaticPSF2DFitWorkspace.matrix) : list Q :=
  map (fun x => nth x (nth x A []) 0) (arange (List.length A)).

(** The fields of the workspace once the weights [W] and the matrix [Qm] of
    the regularisation are computed. *)
Definition workspace_of (W : list (list Q)) (Qm : ChromaticPSF2DFitWorkspace.matrix)
           (data : list (list Q)) (bgd_std : Q) (method : prior) (poly_params : list Q)
  : ChromaticPSF1DFitWorkspace.workspace :=
  let Nx := List.length data in
  let amplitude_priors :=
    match method with
    | psf1d | fixed => firstn Nx poly_params
    | _ => []
    end in
  ChromaticPSF1DFitWorkspace.mkWorkspace
    Nx W (ChromaticPSF1DFitWorkspace.weights_dot_data W data) bgd_std method
    (diagonal Qm) (ChromaticPSF2DFitWorkspace.matvec Qm amplitude_priors)
    amplitude_priors.

Definition fit_workspace (data err : list (list Q)) (bgd_std : Q) (method : prior)
           (reg : Q) (poly_params : list Q)
  : option ChromaticPSF1DFitWorkspace.workspace :=
  W <- ChromaticPSF1DFitWorkspace.weights err ;;
  Qm <- match method with psf1d => regularisation reg err | _ => Some [] end ;;
  Some (workspace_of W Qm data bgd_std method poly_params).


(* ------------------------------------------------------------------ *)
(** ** ChromaticPSF.fit_transverse_PSF1D_profile: the columns that are fitted *)

(** [np.arange(start, stop, step)] and [np.arange(start, -1, -step)] on
    pixel indices, for a step of at least one pixel. *)
Definition arange_up (start stop step : nat) : list nat :=
  map (fun i => start + i * step)%nat (seq 0 ((stop - start + step - 1) / step)).
Definition arange_down (start step : nat) : list nat :=
  map (fun i => start - i * step)%nat (seq 0 ((start + step) / step)).

(** [x not in pixel_range]. *)
Definition not_in (x : nat) (l : list nat) : bool := negb (existsb (Nat.eqb x) l).

(** The list [pixel_range] of the columns to fit, in the order of the fits:
    from the column [xmax_index] of the maximum to the right, then from it
    to the left, the last and the first column being added when the step
    jumps over them.  [np.arange] raises on a step of zero. *)
Definition pixel_range (Nx xmax_index pixel_step : nat) : option (list nat) :=
  if (pixel_step =? 0)%nat then None
  else
    let r := arange_up xmax_index Nx pixel_step in
    let r := if not_in (Nx - 1) r then r ++ [(Nx - 1)%nat] else r in
    let r := r ++ arange_down xmax_index pixel_step in
    let r := if not_in 0 r then r ++ [0%nat] else r in
    Some r.

(* ------------------------------------------------------------------ *)
(** ** class ChromaticPSF1D(ChromaticPSF) *)

(** The chromatic PSF with another PSF object. *)
Definition with_psf (self : ChromaticPSF_obj) (psf' : PSF_obj) : ChromaticPSF_obj :=
  mkChromaticPSF psf' (deg self) (degrees self) (Nx self) (Ny self) (table_len self)
                 (saturation self).

(** [profile_params[k]], the parameter vector of the pixel [k], in a table
    kept by columns. *)
Definition row (t : table) (k : nat) : list Q := map (fun col => nth k col 0) t.

Module ChromaticPSF1D.

(** [ChromaticPSF1D.__init__]: the PSF is a [MoffatGauss()]. *)
Definition init (Nx Ny deg : nat) (saturation : Q) : ChromaticPSF_obj :=
  ChromaticPSF.init (MoffatGauss.init None) Nx Ny deg saturation.

Section Evaluate.

Variable power : Q -> Q -> Q.
Variable exp : Q -> Q.
Variable pi : Q.

(** The loop [for k in range(Nx): output[:, k] = self.psf.evaluate(y,
    p=profile_params[k])]; the PSF object keeps the last parameter vector.
    Reading a row beyond the table raises; [None] also stands for a column
    of which [evaluate] returns no array of numbers (an exception, or a
    division by zero). *)
Fixpoint evaluate_columns (psf : PSF_obj) (y : list Q) (profile_params : table)
         (length : nat) (ks : list nat) : option (PSF_obj * list (list Q)) :=
  match ks with
  | [] => Some (psf, [])
  | k :: ks' =>
      if (k <? length)%nat then
        match MoffatGauss.evaluate power exp pi psf (Pix1D y) (Some (row profile_params k)) with
        | (psf', Returned (Arr1 column)) =>
            r <- evaluate_columns psf' y profile_params length ks' ;;
            Some (fst r, column :: snd r)
        | _ => None
        end
      else None
  end.

(** [ChromaticPSF1D.evaluate(self, poly_params, pixels=None)]: the object
    after the call and the image [output], given by columns [output[:, k]]. *)
Definition evaluate (self : ChromaticPSF_obj) (poly_params : list Q)
           (pixels : option (list Q)) : option (ChromaticPSF_obj * list (list Q)) :=
  let Ny := match pixels with None => Ny self | Some px => List.length px end in
  let self := with_psf self (MoffatGauss.apply_max_width_to_bounds
                               (psf self) (Some (Hi (Qnat (Ny / 2))))) in
  profile_params <- ChromaticPSF.from_poly_params_to_profile_params self poly_params true ;;
  r <- evaluate_columns (psf self) (map Qnat (arange Ny)) profile_params
                        (table_len self) (arange (Nx self)) ;;
  Some (with_psf self (fst r), snd r).

End Evaluate.

End ChromaticPSF1D.

(* ------------------------------------------------------------------ *)
(** ** The labels of the polynomial vector and the background crop *)

(** The label [f"{p}_{k}"] of a coefficient. *)
Definition label (p : string) (k : nat) : string :=
  (p ++ "_" ++ NilEmpty.string_of_uint (Nat.to_uint k))%string.

(** The loop of [ChromaticPSF.__init__] over [self.psf.param_names]:
    [self.n_poly_params += self.degrees[name] + 1]. *)
Fixpoint count_coefficients (degs : degrees_dict) (names : list string) (n : nat)
  : option nat :=
  match names with
  | [] => Some n
  | name :: names' =>
      d <- dict_get degs name ;; count_coefficients degs names' (n + (d + 1))
  end.

(** [self.n_poly_params], the size of [self.poly_params]. *)
Definition n_poly_params (self : ChromaticPSF_obj) : option nat :=
  count_coefficients (degrees self) (param_names (psf self)) (table_len self).

(** The branch [else] of the loop that builds [self.poly_params_labels]:
    the labels of the parameters after the first. *)
Fixpoint shape_labels (degs : degrees_dict) (names : list string) : option (list string) :=
  match names with
  | [] => Some []
  | p :: names' =>
      d <- dict_get degs p ;;
      rest <- shape_labels degs names' ;;
      Some (map (label p) (arange (d + 1)) ++ rest)
  end.

(** [self.poly_params_labels]: one label per table row for the first
    parameter ([ip == 0]), then the labels of the coefficients. *)
Definition poly_params_labels (self : ChromaticPSF_obj) : option (list string) :=
  match param_names (psf self) with
  | [] => Some []
  | p :: names =>
      rest <- shape_labels (degrees self) names ;;
      Some (map (label p) (arange (table_len self)) ++ rest)
  end.

(** An index into a numpy array of [len] entries: a negative index counts
    from the end, an index out of range raises. *)
Definition py_index (len : nat) (i : Z) : option nat :=
  if ((0 <=? i) && (i <? Z.of_nat len))%Z then Some (Z.to_nat i)
  else if ((- Z.of_nat len <=? i) && (i <? 0))%Z then Some (Z.to_nat (Z.of_nat len + i))
  else None.

(** [a[i] -= b] and [a[i] += b]. *)
Definition isub (a : list Q) (i : Z) (b : Q) : option (list Q) :=
  k <- py_index (List.length a) i ;; Some (set_nth k (nth k a 0 - b) a).
Definition iadd (a : list Q) (i : Z) (b : Q) : option (list Q) :=
  k <- py_index (List.length a) i ;; Some (set_nth k (nth k a 0 + b) a).

(** [a[n:] = np.copy(v)]: numpy copies a vector of the length of the slice,
    repeats a single value, and raises on any other length. *)
Definition assign_from (n : nat) (a v : list Q) : option (list Q) :=
  let tail := (List.length a - n)%nat in
  if (List.length v =? tail)%nat then Some (firstn n a ++ v)
  else match v with
       | [v0] => Some (firstn n a ++ repeat v0 tail)
       | _ => None
       end.

(** [a[:n] = v]: numpy copies a vector of the length of the slice, repeats
    a single value, and raises on any other length. *)
Definition assign_upto (n : nat) (a v : list Q) : option (list Q) :=
  let head := Nat.min n (List.length a) in
  if (List.length v =? head)%nat then Some (v ++ skipn n a)
  else match v with
       | [v0] => Some (repeat v0 head ++ skipn n a)
       | _ => None
       end.

Module ChromaticPSFFitWorkspace.

(** [self.input_labels = self.chromatic_psf.poly_params_labels[length:]]. *)
Definition input_labels (labels : list string) (length : nat) : list string :=
  skipn length labels.

(** The loop that looks for the label ["y_mean_0"], from the index [k] on;
    [-1] when no label matches. *)
Fixpoint find_y_mean_0 (labels : list string) (k : Z) : Z :=
  match labels with
  | [] => (-1)%Z
  | par :: labels' =>
      if String.eqb par "y_mean_0" then k else find_y_mean_0 labels' (k + 1)%Z
  end.

(** [self.y_mean_0_index] as [__init__] sets it. *)
Definition y_mean_0_index (chromatic_psf : ChromaticPSF_obj) : option Z :=
  labels <- poly_params_labels chromatic_psf ;;
  Some (find_y_mean_0 (input_labels labels (table_len chromatic_psf)) 0%Z).

(** The first lines of [simulate] in both fit workspaces: the shape
    parameters are written after the [Nx] amplitudes, and the width of the
    background crop is taken from the coefficient labelled ["y_mean_0"]. *)
Definition cropped_poly_params (Nx : nat) (y_mean_0_index bgd_width : Z)
           (poly_params shape_params : list Q) : option (list Q) :=
  p <- assign_from Nx poly_params shape_params ;;
  isub p (Z.of_nat Nx + y_mean_0_index)%Z (inject_Z bgd_width).

(** The last lines of [simulate] in both fit workspaces: the amplitudes
    just solved replace the first [Nx] entries of the vector, and the
    workspace stores the result: [poly_params[:self.Nx] = amplitude_params;
    self.poly_params = np.copy(poly_params)]. *)
Definition stored_poly_params (Nx : nat) (poly_params amplitude_params : list Q)
  : option (list Q) :=
  assign_upto Nx poly_params amplitude_params.

(** The line of [fit_chromatic_psf] after the minimisation, on the vector
    that the workspace stored:
    [self.poly_params[w.Nx + w.y_mean_0_index] += w.bgd_width]. *)
Definition restored_poly_params (Nx : nat) (y_mean_0_index bgd_width : Z)
           (poly_params : list Q) : option (list Q) :=
  iadd poly_params (Z.of_nat Nx + y_mean_0_index)%Z (inject_Z bgd_width).

End ChromaticPSFFitWorkspace.

(** A column as [from_poly_params_to_profile_params] returns it: clipped
    to its hard bound pair when [apply_bounds] is set. *)
Definition returned_column (apply_bounds : bool) (b : bounds) (col : list Q) : list Q :=
  if apply_bounds then map (ChromaticPSF.clip_hard b) col else col.

(** The width of the background crop taken from every entry of the column
    of [y_mean] (the column of index 2), and nothing from the others. *)
Definition crop_column (bgd_width : Z) (k : nat) (col : list Q) : list Q :=
  if (k =? 2)%nat then map (fun v => v - inject_Z bgd_width) col else col.

(* ================================================================== *)
(** * Properties *)

(* ------------------------------------------------------------------ *)
(** ** Comparisons *)

Lemma Qlt_bool_true (x y : Q) : Qlt_bool x y = true <-> x < y.
Proof.
  unfold Qlt_bool. rewrite negb_true_iff.
  destruct (Qle_bool y x) eqn:E.
  - apply Qle_bool_iff in E. split; [discriminate | intro; exfalso; lra].
  - split; [intros _ | reflexivity].
    apply Qnot_le_lt. intro H. apply Qle_bool_iff in H. congruence.
Qed.

Lemma Qlt_bool_false (x y : Q) : Qlt_bool x y = false <-> y <= x.
Proof.
  unfold Qlt_bool. rewrite negb_false_iff. apply Qle_bool_iff.
Qed.

Lemma Qle_bool_false (x y : Q) : Qle_bool x y = false <-> y < x.
Proof.
  rewrite <- Qlt_bool_true. unfold Qlt_bool.
  destruct (Qle_bool x y); simpl; split; congruence.
Qed.

(** Case analysis on the comparisons of a goal. *)
Ltac cmp :=
  repeat match goal with
    | |- context [Qlt_bool ?x ?y] =>
        let E := fresh "E" in
        destruct (Qlt_bool x y) eqn:E;
        [apply Qlt_bool_true in E | apply Qlt_bool_false in E]
    | |- context [Qle_bool ?x ?y] =>
        let E := fresh "E" in
        destruct (Qle_bool x y) eqn:E;
        [apply Qle_bool_iff in E | apply Qle_bool_false in E]
    | H : context [Qlt_bool ?x ?y] |- _ =>
        let E := fresh "E" in
        destruct (Qlt_bool x y) eqn:E;
        [apply Qlt_bool_true in E | apply Qlt_bool_false in E]
    | H : context [Qle_bool ?x ?y] |- _ =>
        let E := fresh "E" in
        destruct (Qle_bool x y) eqn:E;
        [apply Qle_bool_iff in E | apply Qle_bool_false in E]
    end.




(* ------------------------------------------------------------------ *)
(** ** PSF shape model: bounds and the stored parameter vector *)

(** C9. [MoffatGauss.apply_max_width_to_bounds] is idempotent: a second call
    with the same half-width [h] gives back the object the first call left,
    and after the call the hard and soft bounds of [y_mean] end at [2*h] and
    those of [gamma] and [stddev] end at [h]. *)
Theorem apply_max_width_to_bounds_idempotent :
  forall (self : PSF_obj) (h : upper),
    let once := MoffatGauss.apply_max_width_to_bounds self (Some h) in
    MoffatGauss.apply_max_width_to_bounds once (Some h) = once
    /\ max_half_width once = h
    /\ bounds_soft once = bounds_hard once
    /\ nth_error (bounds_hard once) 2 = Some (Lo 0, twice h)
    /\ nth_error (bounds_hard once) 3 = Some (Lo (1 # 10), h)
    /\ nth_error (bounds_hard once) 6 = Some (Lo (1 # 10), h).
Proof.
  intros self h once. subst once.
  unfold MoffatGauss.apply_max_width_to_bounds; simpl.
  repeat split; reflexivity.
Qed.

(** A call that omits the half-width reuses the stored one, so it changes
    nothing either once a width has been applied. *)
Lemma apply_max_width_to_bounds_default :
  forall (self : PSF_obj) (h : upper),
    let once := MoffatGauss.apply_max_width_to_bounds self (Some h) in
    MoffatGauss.apply_max_width_to_bounds once None = once.
Proof.
  intros self h once. reflexivity.
Qed.

Lemma MoffatGauss_evaluate_state (power : Q -> Q -> Q) (exp : Q -> Q) (pi : Q)
      (self : PSF_obj) (pixels : pixel_array) (p_arg : option (list Q)) :
  fst (MoffatGauss.evaluate power exp pi self pixels p_arg)
  = match p_arg with Some q => set_p self q | None => self end.
Proof.
  unfold MoffatGauss.evaluate.
  destruct p_arg as [q|]; simpl.
  - destruct q as [|? [|? [|? [|? [|? [|? [|? [|? [|? ?]]]]]]]]]; try reflexivity;
      destruct pixels; reflexivity.
  - destruct (p self) as [|? [|? [|? [|? [|? [|? [|? [|? [|? ?]]]]]]]]]; try reflexivity;
      destruct pixels; reflexivity.
Qed.

(** C10. [PSF.evaluate] and [MoffatGauss.evaluate] called with a parameter
    vector [q] store it in [self.p] and change no other field; a later call
    that omits [p] evaluates at [q], whatever the object was built with, and
    does not change the object. *)
Theorem evaluate_overwrites_stored_parameters :
  forall (power : Q -> Q -> Q) (exp : Q -> Q) (pi : Q)
         (self : PSF_obj) (pixels later : pixel_array) (q : list Q),
    let s1 := fst (PSF.evaluate self pixels (Some q)) in
    let s2 := fst (MoffatGauss.evaluate power exp pi self pixels (Some q)) in
    (p s1 = q /\ other_fields s1 = other_fields self)
    /\ (p s2 = q /\ other_fields s2 = other_fields self)
    /\ PSF.evaluate s1 later None = (s1, snd (PSF.evaluate self later (Some q)))
    /\ MoffatGauss.evaluate power exp pi s2 later None
       = (s2, snd (MoffatGauss.evaluate power exp pi self later (Some q)))
    /\ fst (PSF.evaluate self pixels None) = self
    /\ fst (MoffatGauss.evaluate power exp pi self pixels None) = self.
Proof.
  intros power exp pi self pixels later q s1 s2.
  assert (H1 : s1 = set_p self q) by (subst s1; destruct pixels; reflexivity).
  assert (H2 : s2 = set_p self q) by (subst s2; apply MoffatGauss_evaluate_state).
  rewrite H1, H2.
  repeat split; try reflexivity.
  - destruct later; reflexivity.
  - rewrite (surjective_pairing (MoffatGauss.evaluate power exp pi (set_p self q) later None)).
    rewrite MoffatGauss_evaluate_state. reflexivity.
  - destruct pixels; reflexivity.
  - apply MoffatGauss_evaluate_state.
Qed.
(* ------------------------------------------------------------------ *)
(** ** Profile/polynomial transform: the expansion *)

Lemma slice_nonempty {A : Type} (a n : nat) (l : list A) :
  (a < List.length l)%nat -> slice a (n + 1) l <> [].
Proof.
  intros H E. unfold slice in E.
  assert (L : List.length (firstn (n + 1) (skipn a l)) = 0%nat) by (rewrite E; reflexivity).
  rewrite length_firstn, length_skipn in L. lia.
Qed.

Lemma legval_some (pixels c : list Q) :
  c <> [] -> exists v, legval pixels c = Some v /\ List.length v = List.length pixels.
Proof.
  intro H. destruct c as [|c0 c]; [congruence|].
  eexists. split; [reflexivity|]. apply length_map.
Qed.

Lemma legval_length (pixels c v : list Q) :
  legval pixels c = Some v -> List.length v = List.length pixels.
Proof.
  destruct c; simpl; [discriminate|]. intro H. inversion H. apply length_map.
Qed.

Lemma expand_columns_nth (degs : degrees_dict) (len : nat) (pixels poly : list Q) :
  forall (names : list string) (shift : nat) (t : table),
    ChromaticPSF.expand_columns degs len pixels poly shift names = Some t ->
    List.length t = List.length names /\
    forall (k : nat) (name : string),
      nth_error names k = Some name ->
      nth_error t k
      = Some (expanded_column degs len pixels poly name
                              (shift + coefficient_offset degs names k)).
Proof.
  induction names as [|name names IH]; intros shift t H; simpl in H.
  - inversion H. split; [reflexivity|]. intros [|k] ? E; discriminate E.
  - destruct (String.eqb name "amplitude") eqn:Ea.
    + destruct (ChromaticPSF.expand_columns degs len pixels poly shift names) as [rest|] eqn:Er;
        simpl in H; [|discriminate].
      inversion H; subst t. destruct (IH _ _ Er) as [L N].
      split; [simpl; congruence|].
      intros [|k] nm E; simpl in E.
      * inversion E; subst nm. simpl. unfold expanded_column. rewrite Ea. reflexivity.
      * simpl. rewrite Ea. simpl. apply N, E.
    + destruct (dict_get degs name) as [d|] eqn:Ed; simpl in H; [|discriminate].
      match type of H with
      | bind ?c _ = _ => destruct c as [col|] eqn:Ec; simpl in H; [|discriminate]
      end.
      destruct (ChromaticPSF.expand_columns degs len pixels poly (shift + d + 1) names)
        as [rest|] eqn:Er; simpl in H; [|discriminate].
      inversion H; subst t. destruct (IH _ _ Er) as [L N].
      split; [simpl; congruence|].
      intros [|k] nm E; simpl in E.
      * inversion E; subst nm. simpl. unfold expanded_column. rewrite Ea, Ed.
        rewrite Nat.add_0_r. f_equal. unfold legval_or_zeros.
        destruct (len <? List.length poly)%nat.
        -- rewrite Ec. reflexivity.
        -- simpl. destruct (0 <? List.length (slice shift (d + 1) poly))%nat eqn:E0.
           ++ rewrite Ec. reflexivity.
           ++ inversion Ec; subst col.
              apply Nat.ltb_ge in E0.
              destruct (slice shift (d + 1) poly); [reflexivity | simpl in E0; lia].
      * simpl. rewrite Ea, Ed. rewrite (N _ _ E). do 2 f_equal. lia.
Qed.

Lemma expand_columns_some (degs : degrees_dict) (len : nat) (pixels poly : list Q) :
  forall (names : list string) (shift : nat),
    has_coefficients degs len (List.length poly) shift names = true ->
    exists t, ChromaticPSF.expand_columns degs len pixels poly shift names = Some t.
Proof.
  induction names as [|name names IH]; intros shift H; simpl in *.
  - eexists; reflexivity.
  - destruct (String.eqb name "amplitude").
    + destruct (IH _ H) as [rest Er]. rewrite Er. simpl. eexists; reflexivity.
    + destruct (dict_get degs name) as [d|]; [|discriminate]. simpl.
      apply andb_true_iff in H. destruct H as [Hc Hr].
      destruct (IH _ Hr) as [rest Er]. rewrite Er.
      destruct (len <? List.length poly)%nat eqn:El.
      * apply Nat.ltb_lt in El.
        apply orb_true_iff in Hc. destruct Hc as [Hc|Hc];
          [apply Nat.leb_le in Hc; lia | apply Nat.ltb_lt in Hc].
        destruct (legval_some pixels (slice (len + shift) (d + 1) poly)) as [v [Ev _]].
        { apply slice_nonempty. exact Hc. }
        rewrite Ev. simpl. eexists; reflexivity.
      * destruct (0 <? List.length (slice shift (d + 1) poly))%nat eqn:E0.
        -- destruct (legval_some pixels (slice shift (d + 1) poly)) as [v [Ev _]].
           { apply Nat.ltb_lt in E0. intro Z. rewrite Z in E0. simpl in E0. lia. }
           rewrite Ev. simpl. eexists; reflexivity.
        -- simpl. eexists; reflexivity.
Qed.

(** C8. Provided the polynomial vector gives every shape parameter a known
    degree and, when it is longer than the table ([Nx] entries), at least
    one coefficient, the expansion returns a table.  When the vector holds at
    most [Nx] numbers the amplitude column is all ones and the coefficients
    of each shape parameter are read from the start of the vector; when it
    holds more than [Nx] numbers the first [Nx] are the amplitude column and
    the coefficients are read after them. *)
Theorem expansion_amplitude_block :
  forall (self : ChromaticPSF_obj) (poly_params : list Q),
    let names := param_names (psf self) in
    let len := table_len self in
    has_coefficients (degrees self) len (List.length poly_params) 0 names = true ->
    exists t : table,
      ChromaticPSF.from_poly_params_to_profile_params self poly_params false = Some t
      /\ List.length t = List.length names
      /\ forall (k : nat) (name : string),
          nth_error names k = Some name ->
          (name = "amplitude"%string ->
           ((List.length poly_params <= len)%nat -> nth_error t k = Some (repeat 1 len))
           /\ ((len < List.length poly_params)%nat ->
               nth_error t k = Some (firstn len poly_params)))
          /\ (forall d : nat,
                name <> "amplitude"%string ->
                dict_get (degrees self) name = Some d ->
                ((List.length poly_params <= len)%nat ->
                 nth_error t k
                 = Some (legval_or_zeros len (linspace len)
                           (slice (coefficient_offset (degrees self) names k)
                                  (d + 1) poly_params)))
                /\ ((len < List.length poly_params)%nat ->
                    nth_error t k
                    = Some (legval_or_zeros len (linspace len)
                              (slice (len + coefficient_offset (degrees self) names k)
                                     (d + 1) poly_params)))).
Proof.
  intros self poly names len H.
  destruct (expand_columns_some (degrees self) len (linspace len) poly names 0 H) as [t Et].
  exists t. unfold ChromaticPSF.from_poly_params_to_profile_params.
  fold len. fold names. rewrite Et. simpl.
  destruct (expand_columns_nth _ _ _ _ _ _ _ Et) as [L N].
  split; [reflexivity|]. split; [exact L|].
  intros k name E. specialize (N k name E). simpl in N.
  unfold expanded_column in N.
  split.
  - intro A. subst name. simpl in N. split; intro C.
    + apply Nat.ltb_ge in C. rewrite C in N. exact N.
    + apply Nat.ltb_lt in C. rewrite C in N. exact N.
  - intros d A D. apply String.eqb_neq in A. rewrite A, D in N. split; intro C.
    + apply Nat.ltb_ge in C. rewrite C in N. exact N.
    + apply Nat.ltb_lt in C. rewrite C in N. exact N.
Qed.

Lemma expansion_amplitude_block_witness :
  let self := ChromaticPSF.init (MoffatGauss.init None) 3 4 1 8000 in
  let poly_params := [1; 2; 3; 0; 0; 2; 1; 5; 0; 2; 0; 0; 0; 2; 0; 8000] in
  exists t : table,
    ChromaticPSF.from_poly_params_to_profile_params self poly_params false = Some t
    /\ nth_error t 0 = Some [1; 2; 3].
Proof.
  intros self poly_params.
  destruct (expansion_amplitude_block self poly_params) as [t [E [L N]]].
  - vm_compute. reflexivity.
  - exists t. split; [exact E|].
    destruct (N 0%nat "amplitude"%string) as [A _]; [reflexivity|].
    destruct (A eq_refl) as [_ A2]. apply A2. vm_compute. lia.
Defined.

(** A vector of three numbers for a table of two pixels is longer than the
    table, so its first two numbers are taken as amplitudes and the third as
    the only coefficient of [x_mean]; the slice of [y_mean] is empty and
    [legval] raises: no table comes back. *)
Lemma expansion_of_truncated_vector_raises :
  let self := ChromaticPSF.init (MoffatGauss.init None) 2 4 1 8000 in
  let poly_params := [7; 8; 1] in
  (table_len self < List.length poly_params)%nat
  /\ ChromaticPSF.from_poly_params_to_profile_params self poly_params false = None.
Proof.
  split; [vm_compute; lia | vm_compute; reflexivity].
Qed.

(* ------------------------------------------------------------------ *)
(** ** Profile/polynomial transform: hard clipping *)


(** The upper end is respected whatever the order of the pair. *)
Lemma clip_hard_below_max (lo : lower) (hi v : Q) : ChromaticPSF.clip_hard (lo, Hi hi) v <= hi.
Proof.
  destruct lo as [|lo]; unfold ChromaticPSF.clip_hard, Qgt_bool; simpl; cmp; lra.
Qed.

Lemma clip_columns_length :
  forall (names : list string) (hard : list bounds) (cols t : table),
    ChromaticPSF.clip_columns hard names cols = Some t ->
    List.length t = List.length cols.
Proof.
  induction names as [|name names IH]; intros hard cols t E; simpl in E.
  - inversion E. reflexivity.
  - destruct hard as [|b0 hard]; [discriminate|].
    destruct cols as [|c0 cols]; [discriminate|].
    destruct (ChromaticPSF.clip_columns hard names cols) as [rest|] eqn:Er; [|discriminate].
    simpl in E. inversion E. simpl. f_equal. eapply IH. exact Er.
Qed.

Lemma clip_columns_nth :
  forall (names : list string) (hard : list bounds) (cols : table),
    List.length cols = List.length names ->
    (List.length names <= List.length hard)%nat ->
    exists t : table,
      ChromaticPSF.clip_columns hard names cols = Some t
      /\ forall (k : nat) (b : bounds) (col : list Q),
          nth_error hard k = Some b -> nth_error cols k = Some col ->
          nth_error t k = Some (map (ChromaticPSF.clip_hard b) col).
Proof.
  induction names as [|name names IH]; intros hard cols Lc Lh; simpl.
  - exists cols. split; [reflexivity|].
    destruct cols; [|discriminate Lc]. intros [|k] ? ? _ E; discriminate E.
  - destruct hard as [|b0 hard]; [simpl in Lh; lia|].
    destruct cols as [|col0 cols]; [discriminate Lc|].
    simpl in Lc, Lh.
    destruct (IH hard cols) as [rest [Er N]]; [lia | lia |].
    rewrite Er. simpl. eexists. split; [reflexivity|].
    intros [|k] b col Hb Hc; simpl in *.
    + inversion Hb; inversion Hc; subst. reflexivity.
    + apply N; assumption.
Qed.


(** The hard bounds of a MoffatGauss PSF are intervals as constructed, and
    after [apply_max_width_to_bounds(h)] exactly when [h] is infinite or at
    least 0.1. *)
Lemma MoffatGauss_bounds_ordered :
  Forall ordered (bounds_hard (MoffatGauss.init None))
  /\ forall (self : PSF_obj) (h : upper),
      Forall ordered (bounds_hard (MoffatGauss.apply_max_width_to_bounds self (Some h)))
      <-> match h with PosInf => True | Hi q => 1 # 10 <= q end.
Proof.
  split.
  - repeat constructor; unfold ordered; simpl; lra.
  - intros self h. simpl. unfold MoffatGauss.width_bounds. split.
    + intro H. destruct h as [|q]; [exact I|].
      inversion H as [|? ? _ Ha]; subst.
      inversion Ha as [|? ? _ Hb]; subst.
      inversion Hb as [|? ? _ Hc]; subst.
      inversion Hc as [|? ? Hg _]; subst.
      exact Hg.
    + intro H. destruct h as [|q]; repeat constructor; unfold ordered; simpl; lra.
Qed.



(* ------------------------------------------------------------------ *)
(** ** Amplitude stage: positive and smooth priors *)

Lemma clip_negative_nonnegative (a : list Q) : Forall (fun v => 0 <= v) (clip_negative a).
Proof.
  unfold clip_negative. induction a as [|v a IH]; simpl; constructor; [|exact IH].
  cmp; lra.
Qed.

Lemma clip_negative_nth (a : list Q) (x : nat) :
  nth x (clip_negative a) 0 = if Qlt_bool (nth x a 0) 0 then 0 else nth x a 0.
Proof.
  unfold clip_negative.
  exact (map_nth (fun v : Q => if Qlt_bool v 0 then 0 else v) a 0 x).
Qed.

Lemma is_in_true (i : nat) (l : list nat) : is_in i l = true <-> In i l.
Proof.
  unfold is_in. rewrite existsb_exists. split.
  - intros [j [Hj E]]. apply Nat.eqb_eq in E. subst. exact Hj.
  - intro H. exists i. split; [exact H | apply Nat.eqb_refl].
Qed.

Lemma where_negative_In (a : list Q) (i : nat) :
  In i (where_negative a) <-> (i < List.length a)%nat /\ nth i a 0 < 0.
Proof.
  unfold where_negative, arange. rewrite filter_In, in_seq, Qlt_bool_true.
  split; intros [H1 H2]; split; try assumption; lia.
Qed.

Lemma where_negative_NoDup (a : list Q) : NoDup (where_negative a).
Proof.
  unfold where_negative, arange. apply NoDup_filter, seq_NoDup.
Qed.

Lemma set_nth_length (i : nat) (v : Q) (l : list Q) :
  List.length (set_nth i v l) = List.length l.
Proof.
  revert i. induction l as [|h t IH]; intros [|i]; simpl; try reflexivity.
  f_equal. apply IH.
Qed.

Lemma set_nth_same (i : nat) (v d : Q) (l : list Q) :
  (i < List.length l)%nat -> nth i (set_nth i v l) d = v.
Proof.
  revert i. induction l as [|h t IH]; intros [|i] H; simpl in *; try lia; try reflexivity.
  apply IH. lia.
Qed.

Lemma set_nth_other (i j : nat) (v d : Q) (l : list Q) :
  i <> j -> nth j (set_nth i v l) d = nth j l d.
Proof.
  revert i j. induction l as [|h t IH]; intros [|i] [|j] H; simpl; try reflexivity;
    try congruence.
  apply IH. congruence.
Qed.

Section Smoothing.

Variable Nx : nat.
Variable nulls : list nat.

Lemma smooth_step_length (a : list Q) (index : nat) :
  List.length (smooth_step Nx nulls a index) = List.length a.
Proof. apply set_nth_length. Qed.

Lemma smooth_fold_length (indices : list nat) :
  forall a, List.length (fold_left (smooth_step Nx nulls) indices a) = List.length a.
Proof.
  induction indices as [|i indices IH]; intro a; simpl; [reflexivity|].
  rewrite IH. apply smooth_step_length.
Qed.

(** A pass over [indices] rewrites no entry outside [indices]. *)
Lemma smooth_fold_frame (indices : list nat) (j : nat) :
  ~ In j indices ->
  forall a, nth j (fold_left (smooth_step Nx nulls) indices a) 0 = nth j a 0.
Proof.
  induction indices as [|i indices IH]; intros H a; simpl; [reflexivity|].
  rewrite IH by (intro; apply H; right; assumption).
  apply set_nth_other. intro E. apply H. left. exact E.
Qed.

(** The inner loop stops at the first index outside [null_indices]. *)
Lemma scan_stops (a : list Q) (init : Q) (before after : list nat) (r : nat) :
  Forall (fun i => In i nulls) before -> ~ In r nulls ->
  scan a nulls init (before ++ r :: after) = nth r a 0.
Proof.
  revert init. induction before as [|i before IH]; intros init Hb Hr; simpl.
  - destruct (is_in r nulls) eqn:E; [|reflexivity].
    apply is_in_true in E. contradiction.
  - inversion Hb; subst. apply is_in_true in H1. rewrite H1. apply IH; assumption.
Qed.

End Smoothing.

Lemma range_right_split (j r Nx : nat) :
  (j <= r)%nat -> (r < Nat.min (j + 10) Nx)%nat ->
  range_right j Nx = seq j (r - j) ++ r :: seq (S r) (Nat.min (j + 10) Nx - S r).
Proof.
  intros H1 H2. unfold range_right.
  replace (Nat.min (j + 10) Nx - j)%nat
    with ((r - j) + S (Nat.min (j + 10) Nx - S r))%nat by lia.
  rewrite seq_app. simpl.
  replace (j + (r - j))%nat with r by lia. reflexivity.
Qed.

Lemma range_left_split (j l : nat) :
  (Nat.max 0 (j - 10) < l)%nat -> (l <= j)%nat ->
  range_left j
  = rev (seq (S l) (j - l)) ++ l :: rev (seq (S (Nat.max 0 (j - 10))) (l - S (Nat.max 0 (j - 10)))).
Proof.
  intros H1 H2. unfold range_left.
  set (m := Nat.max 0 (j - 10)) in *.
  replace (j - m)%nat with ((l - S m) + S (j - l))%nat by lia.
  rewrite seq_app.
  replace (S m + (l - S m))%nat with l by lia.
  simpl. rewrite rev_app_distr. simpl.
  rewrite <- app_assoc. reflexivity.
Qed.

(** C6. Under the smooth prior a negative entry at column [j] whose nearest
    entries that are not negative stand at column [r] on its right and at
    column [l >= 1] on its left, both at most 9 columns away, is replaced by
    the average of these two entries. *)
Theorem smooth_prior_averages_nearest_neighbours :
  forall (a : list Q) (j l r : nat),
    (1 <= l)%nat -> (l < j)%nat -> (j < r)%nat -> (r < List.length a)%nat ->
    (j - l <= 9)%nat -> (r - j <= 9)%nat ->
    (forall i : nat, (l < i < r)%nat -> nth i a 0 < 0) ->
    0 <= nth l a 0 -> 0 <= nth r a 0 ->
    nth j (apply_prior smooth (List.length a) a) 0 = (1 # 2) * (nth r a 0 + nth l a 0).
Proof.
  intros a j l r Hl1 Hlj Hjr Hr Dl Dr Hneg Hl0 Hr0. simpl.
  unfold smooth_negative.
  set (nulls := where_negative a).
  assert (Hj : In j nulls).
  { apply where_negative_In. split; [lia | apply Hneg; lia]. }
  assert (Nr : ~ In r nulls).
  { intro H. apply where_negative_In in H. lra. }
  assert (Nl : ~ In l nulls).
  { intro H. apply where_negative_In in H. lra. }
  assert (Between : forall i, (l < i < r)%nat -> In i nulls).
  { intros i Hi. apply where_negative_In. split; [lia | apply Hneg; exact Hi]. }
  destruct (in_split j nulls Hj) as [before [after Es]].
  assert (ND : NoDup (before ++ j :: after)).
  { rewrite <- Es. apply where_negative_NoDup. }
  assert (Nb : ~ In j before).
  { intro H. apply NoDup_remove_2 in ND. apply ND. apply in_or_app. left. exact H. }
  assert (Na : ~ In j after).
  { intro H. apply NoDup_remove_2 in ND. apply ND. apply in_or_app. right. exact H. }
  assert (Sub : forall i, In i before -> In i nulls).
  { intros i H. rewrite Es. apply in_or_app. left. exact H. }
  rewrite Es at 2. rewrite fold_left_app. simpl.
  set (a1 := fold_left (smooth_step (List.length a) nulls) before a).
  rewrite smooth_fold_frame by exact Na.
  unfold smooth_step.
  rewrite set_nth_same
    by (unfold a1; rewrite smooth_fold_length; lia).
  rewrite (range_right_split j r (List.length a)) by lia.
  rewrite (range_left_split j l) by lia.
  rewrite scan_stops; [| | exact Nr].
  2:{ apply Forall_forall. intros i Hi. apply in_seq in Hi. apply Between. lia. }
  rewrite scan_stops; [| | exact Nl].
  2:{ apply Forall_forall. intros i Hi. apply in_rev, in_seq in Hi. apply Between. lia. }
  unfold a1. rewrite !smooth_fold_frame; [reflexivity | |];
    intro H; apply Sub in H; contradiction.
Qed.

Lemma smooth_prior_averages_nearest_neighbours_witness :
  nth 2 (apply_prior smooth 5 [4; 2; -1; -3; 6]) 0 = (1 # 2) * (6 + 2).
Proof.
  apply (smooth_prior_averages_nearest_neighbours [4; 2; -1; -3; 6] 2 1 4);
    simpl; try lia; try lra.
  intros i Hi. assert (E : i = 2%nat \/ i = 3%nat) by lia.
  destruct E; subst i; simpl; lra.
Defined.

(** A run of ten negative entries, columns 2 to 11, between entries that
    are not negative.  For column 2 the nearest such entries stand one column
    to the left (value 2) and ten columns to the right (value 6), so the
    specification gives 4; the right loop stops at column 11 and the code
    stores (2 + -1) / 2. *)
Lemma smooth_prior_window_is_nine_columns :
  let a := [3; 2; -1; -1; -1; -1; -1; -1; -1; -1; -1; -1; 6] in
  specified_smooth_value a 2 = Some ((1 # 2) * (6 + 2))
  /\ nth 2 (apply_prior smooth 13 a) 0 = (1 # 2) * (-1 + 2)
  /\ ~ (1 # 2) * (-1 + 2) == (1 # 2) * (6 + 2).
Proof.
  split; [reflexivity|]. split; [reflexivity|]. intro H. lra.
Qed.

(** The left loop never reads column 0: the entry between 5 and 7 becomes
    (7 + -1) / 2 and not 6. *)
Lemma smooth_prior_skips_first_column :
  apply_prior smooth 3 [5; -1; 7] = [5; (1 # 2) * (7 + -1); 7]
  /\ specified_smooth_value [5; -1; 7] 1 = Some ((1 # 2) * (7 + 5)).
Proof.
  split; reflexivity.
Qed.

(* ------------------------------------------------------------------ *)
(** ** Amplitude stage: the positive prior and degenerate columns *)

(** C5. Under the positive prior the amplitude vector is the raw
    least-squares vector (the one the method noprior returns) with every
    negative entry replaced by zero, so it has no negative entry: in the 1D
    workspace for every design matrix, and in the 2D workspace whenever the
    Cholesky factorisation succeeds (otherwise neither method returns). *)
Theorem positive_prior_has_no_negative_amplitude :
  (forall (self : ChromaticPSF1DFitWorkspace.workspace) (M : list (list Q)),
      exists raw cov : list Q,
        ChromaticPSF1DFitWorkspace.amplitudes (with_method self noprior) M = Some (raw, cov)
        /\ ChromaticPSF1DFitWorkspace.amplitudes (with_method self positive) M
           = Some (clip_negative raw, cov)
        /\ Forall (fun v => 0 <= v) (clip_negative raw)
        /\ forall x : nat,
            nth x (clip_negative raw) 0
            = if Qlt_bool (nth x raw 0) 0 then 0 else nth x raw 0)
  /\ (forall (inv_cholesky : ChromaticPSF2DFitWorkspace.matrix ->
                             option ChromaticPSF2DFitWorkspace.matrix)
             (Nx : nat) (Mt : ChromaticPSF2DFitWorkspace.matrix)
             (W W_dot_data : list Q) (Qm : ChromaticPSF2DFitWorkspace.matrix)
             (Q_dot_A0 amplitude_priors : list Q),
         match ChromaticPSF2DFitWorkspace.amplitudes inv_cholesky noprior Nx Mt W W_dot_data
                 Qm Q_dot_A0 amplitude_priors with
         | Some (raw, cov) =>
             ChromaticPSF2DFitWorkspace.amplitudes inv_cholesky positive Nx Mt W W_dot_data
               Qm Q_dot_A0 amplitude_priors = Some (clip_negative raw, cov)
             /\ Forall (fun v => 0 <= v) (clip_negative raw)
             /\ forall x : nat,
                 nth x (clip_negative raw) 0
                 = if Qlt_bool (nth x raw 0) 0 then 0 else nth x raw 0
         | None =>
             ChromaticPSF2DFitWorkspace.amplitudes inv_cholesky positive Nx Mt W W_dot_data
               Qm Q_dot_A0 amplitude_priors = None
         end).
Proof.
  split.
  - intros self M. do 2 eexists. split; [reflexivity|]. split; [reflexivity|].
    split; [apply clip_negative_nonnegative | apply clip_negative_nth].
  - intros. unfold ChromaticPSF2DFitWorkspace.amplitudes.
    match goal with |- context [inv_cholesky ?A] => destruct (inv_cholesky A) as [L|] end;
      simpl; [|reflexivity].
    split; [reflexivity|].
    split; [apply clip_negative_nonnegative | apply clip_negative_nth].
Qed.

Lemma dot_zero_weights (Mx Wx : list Q) :
  Forall (fun w => w == 0) Wx ->
  ChromaticPSF1DFitWorkspace.M_dot_W_dot_M Mx Wx == 0.
Proof.
  unfold ChromaticPSF1DFitWorkspace.M_dot_W_dot_M, dot, sum.
  intro H. revert Mx. induction H as [|w Wx Hw _ IH]; intros [|m Mx]; simpl;
    try reflexivity.
  rewrite IH, Hw. ring.
Qed.

Lemma map2_nth_error {A B C : Type} (f : A -> B -> C) :
  forall (l : list A) (m : list B) (k : nat) (a : A) (b : B),
    nth_error l k = Some a -> nth_error m k = Some b ->
    nth_error (map2 f l m) k = Some (f a b).
Proof.
  induction l as [|x l IH]; intros [|y m] [|k] a b Ha Hb; simpl in *; try discriminate.
  - inversion Ha; inversion Hb; reflexivity.
  - apply IH; assumption.
Qed.

Lemma map3_nth_error {A B C D : Type} (f : A -> B -> C -> D) :
  forall (l : list A) (m : list B) (n : list C) (k : nat) (a : A) (b : B) (c : C),
    nth_error l k = Some a -> nth_error m k = Some b -> nth_error n k = Some c ->
    nth_error (ChromaticPSF1DFitWorkspace.map3 f l m n) k = Some (f a b c).
Proof.
  induction l as [|x l IH]; intros [|y m] [|z n] [|k] a b c Ha Hb Hc; simpl in *;
    try discriminate.
  - inversion Ha; inversion Hb; inversion Hc; reflexivity.
  - apply IH; assumption.
Qed.

Lemma smooth_negative_frame (Nx : nat) (a : list Q) (x : nat) (v : Q) :
  nth_error a x = Some v -> 0 <= v -> nth_error (smooth_negative Nx a) x = Some v.
Proof.
  intros E H. unfold smooth_negative.
  assert (Hx : (x < List.length a)%nat) by (apply nth_error_Some; congruence).
  assert (Ev : nth x a 0 = v) by (apply nth_error_nth; exact E).
  rewrite (nth_error_nth' _ 0)
    by (rewrite smooth_fold_length; exact Hx).
  f_equal. rewrite smooth_fold_frame; [exact Ev|].
  intro I. apply where_negative_In in I. rewrite Ev in I. lra.
Qed.

Lemma combine_nth_error {A B : Type} :
  forall (l : list A) (m : list B) (k : nat) (a : A) (b : B),
    nth_error l k = Some a -> nth_error m k = Some b ->
    nth_error (combine l m) k = Some (a, b).
Proof.
  induction l as [|x l IH]; intros [|y m] [|k] a b Ha Hb; simpl in *; try discriminate.
  - inversion Ha; inversion Hb; reflexivity.
  - apply IH; assumption.
Qed.

Lemma dot_zero_data (Mx WDx : list Q) :
  Forall (fun d => d == 0) WDx -> dot Mx WDx == 0.
Proof.
  unfold dot, sum.
  intro H. revert Mx. induction H as [|d WDx Hd _ IH]; intros [|m Mx]; simpl;
    try reflexivity.
  rewrite IH, Hd. ring.
Qed.

(** C3. A column whose weights are all zero, in the methods that test the
    Gram entry of the column: [bgd_std >= 0] is the noise level of the
    background.  In the methods that solve each column on its own (noprior,
    positive, smooth) the column gets the amplitude [0.1 * bgd_std] and the
    variance [0.1 * bgd_std].  In the method psf1d, when the weighted data of
    the column are zero too and its regularisation entry [Q[x, x]] is not
    positive, the column gets the variance [0.1 * bgd_std] and the amplitude
    [0.1 * bgd_std * Q_dot_A0[x]], which is zero when [Q_dot_A0[x]] is.
    Nothing is divided by the vanishing Gram entry. *)
Theorem degenerate_column_gets_noise_floor :
  forall (self : ChromaticPSF1DFitWorkspace.workspace) (method : prior)
         (M : list (list Q)) (x : nat) (Mx Wx WDx : list Q) (Qxx QA0x : Q),
    method <> fixed ->
    0 <= ChromaticPSF1DFitWorkspace.bgd_std self ->
    nth_error M x = Some Mx ->
    nth_error (ChromaticPSF1DFitWorkspace.W self) x = Some Wx ->
    nth_error (ChromaticPSF1DFitWorkspace.W_dot_data self) x = Some WDx ->
    Forall (fun w => w == 0) Wx ->
    (method = psf1d ->
     Forall (fun d => d == 0) WDx
     /\ nth_error (ChromaticPSF1DFitWorkspace.Q_diag self) x = Some Qxx
     /\ nth_error (ChromaticPSF1DFitWorkspace.Q_dot_A0 self) x = Some QA0x
     /\ Qxx <= 0) ->
    let floor := (1 # 10) * ChromaticPSF1DFitWorkspace.bgd_std self in
    exists (amplitude_params cov : list Q) (a : Q),
      ChromaticPSF1DFitWorkspace.amplitudes (with_method self method) M
      = Some (amplitude_params, cov)
      /\ nth_error cov x = Some floor
      /\ nth_error amplitude_params x = Some a
      /\ (method <> psf1d -> a = floor)
      /\ (method = psf1d -> a == floor * QA0x /\ (QA0x == 0 -> a == 0)).
Proof.
  intros self method M x Mx Wx WDx Qxx QA0x Hm Hb HM HW HD HZ HQ floor.
  pose proof (dot_zero_weights Mx Wx HZ) as Z.
  destruct method; try congruence.
  4: { (* psf1d *)
    destruct (HQ eq_refl) as [HZD [HQd [HQA HQn]]].
    assert (C : nth_error
                  (ChromaticPSF1DFitWorkspace.map3
                     (ChromaticPSF1DFitWorkspace.column_cov_psf1d (with_method self psf1d))
                     M (ChromaticPSF1DFitWorkspace.W self)
                     (ChromaticPSF1DFitWorkspace.Q_diag self)) x = Some floor).
    { rewrite (map3_nth_error _ _ _ _ _ _ _ _ HM HW HQd).
      unfold ChromaticPSF1DFitWorkspace.column_cov_psf1d. cbn [ChromaticPSF1DFitWorkspace.bgd_std with_method].
      destruct (Qlt_bool 0 (ChromaticPSF1DFitWorkspace.M_dot_W_dot_M Mx Wx + Qxx)) eqn:E;
        [apply Qlt_bool_true in E; exfalso; lra | reflexivity]. }
    do 2 eexists. exists (floor * (dot Mx WDx + QA0x)).
    split; [reflexivity|]. split; [exact C|]. split.
    - cbn [ChromaticPSF1DFitWorkspace.W ChromaticPSF1DFitWorkspace.Q_diag
             ChromaticPSF1DFitWorkspace.W_dot_data ChromaticPSF1DFitWorkspace.Q_dot_A0
             with_method].
      rewrite (map3_nth_error _ _ _ _ _ _ _ _ C HM (combine_nth_error _ _ _ _ _ HD HQA)).
      reflexivity.
    - split; [intro H; congruence|]. intros _.
      pose proof (dot_zero_data Mx WDx HZD) as ZD.
      split; [rewrite ZD; ring|]. intro Q0. rewrite ZD, Q0. ring. }
  all: assert (A : nth_error (ChromaticPSF1DFitWorkspace.map3
                           (ChromaticPSF1DFitWorkspace.column_amplitude self)
                           M (ChromaticPSF1DFitWorkspace.W self)
                           (ChromaticPSF1DFitWorkspace.W_dot_data self)) x
              = Some floor)
    by (rewrite (map3_nth_error _ _ _ _ _ _ _ _ HM HW HD);
        unfold ChromaticPSF1DFitWorkspace.column_amplitude;
        destruct (Qlt_bool 0 (ChromaticPSF1DFitWorkspace.M_dot_W_dot_M Mx Wx)) eqn:E;
        [apply Qlt_bool_true in E; exfalso; lra | reflexivity]);
    assert (C : nth_error (map2 (ChromaticPSF1DFitWorkspace.column_cov self)
                              M (ChromaticPSF1DFitWorkspace.W self)) x
              = Some floor)
    by (rewrite (map2_nth_error _ _ _ _ _ _ HM HW);
        unfold ChromaticPSF1DFitWorkspace.column_cov;
        destruct (Qlt_bool 0 (ChromaticPSF1DFitWorkspace.M_dot_W_dot_M Mx Wx)) eqn:E;
        [apply Qlt_bool_true in E; exfalso; lra | reflexivity]);
    do 2 eexists; exists floor; (split; [reflexivity|]); (split; [exact C|]);
    (split; [|split; [intros _; reflexivity | intro H; discriminate H]]).
  - exact A.
  - unfold apply_prior, clip_negative. rewrite nth_error_map.
    cbn [ChromaticPSF1DFitWorkspace.W ChromaticPSF1DFitWorkspace.W_dot_data with_method
         ChromaticPSF1DFitWorkspace.ws_Nx].
    change (ChromaticPSF1DFitWorkspace.column_amplitude (with_method self positive))
      with (ChromaticPSF1DFitWorkspace.column_amplitude self).
    rewrite A. simpl.
    destruct (Qlt_bool floor 0) eqn:E;
      [apply Qlt_bool_true in E; unfold floor in E; exfalso; lra | reflexivity].
  - apply smooth_negative_frame; [exact A | unfold floor; lra].
Qed.

Lemma degenerate_column_gets_noise_floor_witness :
  (exists amplitude_params cov : list Q,
      ChromaticPSF1DFitWorkspace.amplitudes (with_method degenerate_workspace noprior)
        [[1; 2; 1]; [1; 2; 1]] = Some (amplitude_params, cov)
      /\ nth_error cov 0 = Some ((1 # 10) * 10)
      /\ nth_error amplitude_params 0 = Some ((1 # 10) * 10))
  /\ (exists (amplitude_params cov : list Q) (a : Q),
         ChromaticPSF1DFitWorkspace.amplitudes
           (ChromaticPSF1DFitWorkspace.mkWorkspace
              2 [[0; 0; 0]; [1; 1; 1]] [[0; 0; 0]; [2; 8; 2]] 10 psf1d [0; 1] [0; 4] [5; 4])
           [[1; 2; 1]; [1; 2; 1]] = Some (amplitude_params, cov)
         /\ nth_error cov 0 = Some ((1 # 10) * 10)
         /\ nth_error amplitude_params 0 = Some a
         /\ a == 0).
Proof.
  split.
  - destruct (degenerate_column_gets_noise_floor degenerate_workspace noprior
                [[1; 2; 1]; [1; 2; 1]] 0 [1; 2; 1] [0; 0; 0] [0; 0; 0] 0 0)
      as [a [cov [v [E [C [A [F _]]]]]]]; try reflexivity.
    + discriminate.
    + simpl. lra.
    + repeat constructor; reflexivity.
    + intro H. discriminate H.
    + exists a, cov. split; [exact E|]. split; [exact C|].
      rewrite A. f_equal. apply F. discriminate.
  - destruct (degenerate_column_gets_noise_floor
                (ChromaticPSF1DFitWorkspace.mkWorkspace
                   2 [[0; 0; 0]; [1; 1; 1]] [[0; 0; 0]; [2; 8; 2]] 10 psf1d [0; 1] [0; 4]
                   [5; 4])
                psf1d [[1; 2; 1]; [1; 2; 1]] 0 [1; 2; 1] [0; 0; 0] [0; 0; 0] 0 0)
      as [a [cov [v [E [C [A [_ F]]]]]]]; try reflexivity.
    + discriminate.
    + simpl. lra.
    + repeat constructor; reflexivity.
    + intros _. split; [repeat constructor; reflexivity|].
      split; [reflexivity|]. split; [reflexivity | lra].
    + exists a, cov, v. split; [exact E|]. split; [exact C|]. split; [exact A|].
      apply (F eq_refl). reflexivity.
Defined.

(** With a background noise level of 10 the column of zero data and zero
    weight gets the amplitude 1, not 0; with a noise level of 0 (no
    background model) it gets the variance 0. *)
Lemma degenerate_column_amplitude_is_not_zero :
  (exists amplitude_params cov : list Q,
      ChromaticPSF1DFitWorkspace.amplitudes degenerate_workspace [[1; 2; 1]; [1; 2; 1]]
      = Some (amplitude_params, cov)
      /\ nth 0 amplitude_params 0 == 1
      /\ ~ nth 0 amplitude_params 0 == 0)
  /\ (exists amplitude_params cov : list Q,
         ChromaticPSF1DFitWorkspace.amplitudes
           (ChromaticPSF1DFitWorkspace.mkWorkspace
              2 [[0; 0; 0]; [1; 1; 1]] [[0; 0; 0]; [2; 8; 2]] 0 noprior [] [] [])
           [[1; 2; 1]; [1; 2; 1]]
         = Some (amplitude_params, cov)
         /\ nth 0 cov 0 == 0).
Proof.
  split; do 2 eexists; (split; [reflexivity|]); simpl.
  - split; [reflexivity | intro H; discriminate H].
  - reflexivity.
Qed.

(* ------------------------------------------------------------------ *)
(** ** Bound and penalty checker *)

(** C7. Two columns of three pixels, all degrees 0, with [alpha = 12] (soft
    bounds [(1.1, 10)]) and [eta_gauss = 2] (soft bounds [(-1, 0)]) in both
    columns.  Each parameter exceeds its bound by 4 in total; divided by its
    own mean that is [4/12] and [4/2], 14 once scaled by the 6 pixels.
    [check_bounds] returns 13: the division by the mean of [eta_gauss]
    is applied to the running total, which already holds the term of
    [alpha]. *)
Theorem check_bounds_normalises_running_total :
  let self := ChromaticPSF.init (MoffatGauss.init None) 2 3 0 8000 in
  let poly_params := [1; 1; 0; 0; 3; 12; 2; 1; 8000] in
  exists (profile_params : table) (penalty : Q),
    ChromaticPSF.from_poly_params_to_profile_params self poly_params false
    = Some profile_params
    /\ ChromaticPSF.check_bounds self poly_params 0
       = Some (false, penalty, "alpha eta_gauss "%string)
    /\ penalty == 13
    /\ specified_penalty self profile_params == 14.
Proof.
  intros self poly_params. do 2 eexists.
  split; [vm_compute; reflexivity|].
  split; [vm_compute; reflexivity|].
  split; reflexivity.
Qed.

Lemma string_append_assoc (a b c : string) :
  ((a ++ b) ++ c)%string = (a ++ (b ++ c))%string.
Proof.
  induction a as [|ch a IH]; simpl; [reflexivity|]. rewrite IH. reflexivity.
Qed.

Lemma string_append_empty (a : string) : (a ++ "")%string = a.
Proof.
  induction a as [|ch a IH]; simpl; [reflexivity|]. rewrite IH. reflexivity.
Qed.

(** Once a violation is recorded the flag stays down and the names already
    written stay in front. *)
Lemma check_param_keeps (soft : list bounds) (noise_level : Q) (k : nat)
      (name : string) (col : list Q) (st st' : ChromaticPSF.check_state) :
  ChromaticPSF.check_param soft noise_level k name col st = Some st' ->
  (fst (fst st) = false -> fst (fst st') = false)
  /\ exists suffix : string, snd st' = (snd st ++ suffix)%string.
Proof.
  destruct st as [[ib pen] out]. unfold ChromaticPSF.check_param.
  destruct (String.eqb name "amplitude").
  { destruct (existsb _ col); intro H; inversion H; subst; simpl; split; auto.
    - eexists. reflexivity.
    - exists ""%string. symmetry. apply string_append_empty. }
  destruct (String.eqb name "saturation").
  { intro H; inversion H; subst; simpl; split; auto.
    exists ""%string. symmetry. apply string_append_empty. }
  destruct (nth_error soft k) as [[lo hi]|]; simpl; [|discriminate].
  destruct hi as [|hi]; destruct lo as [|lo]; simpl;
    repeat match goal with
      | |- context [existsb ?f col] => destruct (existsb f col)
      end;
    intro H; inversion H; subst; simpl; split; auto;
    try (exists ""%string; symmetry; apply string_append_empty);
    try (eexists; reflexivity);
    try (eexists; rewrite string_append_assoc; reflexivity).
Qed.

Lemma check_loop_keeps (soft : list bounds) (noise_level : Q) :
  forall (names : list string) (cols : table) (k : nat) (st st' : ChromaticPSF.check_state),
    ChromaticPSF.check_loop soft noise_level k names cols st = Some st' ->
    (fst (fst st) = false -> fst (fst st') = false)
    /\ exists suffix : string, snd st' = (snd st ++ suffix)%string.
Proof.
  induction names as [|name names IH]; intros cols k st st' H; simpl in H.
  - inversion H; subst. split; [auto|].
    exists ""%string. symmetry. apply string_append_empty.
  - destruct cols as [|col cols]; [discriminate|].
    destruct (ChromaticPSF.check_param soft noise_level k name col st) as [st1|] eqn:E1;
      simpl in H; [|discriminate].
    destruct (check_param_keeps _ _ _ _ _ _ _ E1) as [F1 [s1 N1]].
    destruct (IH _ _ _ _ H) as [F2 [s2 N2]].
    split; [auto|].
    exists (s1 ++ s2)%string. rewrite N2, N1. apply string_append_assoc.
Qed.

(** The part of the checker that concerns the amplitudes: an amplitude below
    [-noise_level] puts [in_bounds] to [False] and the name ['amplitude'] in
    front of the offending names; the returned penalty is the accumulated one
    times [Nx * Ny]. *)
Lemma check_bounds_flags_negative_amplitude :
  forall (self : ChromaticPSF_obj) (poly_params : list Q) (noise_level : Q)
         (names : list string) (col : list Q) (cols : table)
         (result : ChromaticPSF.check_state),
    param_names (psf self) = "amplitude"%string :: names ->
    ChromaticPSF.from_poly_params_to_profile_params self poly_params false
    = Some (col :: cols) ->
    existsb (fun v => Qlt_bool v (- noise_level)) col = true ->
    ChromaticPSF.check_bounds self poly_params noise_level = Some result ->
    fst (fst result) = false
    /\ exists suffix : string, snd result = ("amplitude " ++ suffix)%string.
Proof.
  intros self poly noise names col cols result Hn He Hv H.
  unfold ChromaticPSF.check_bounds in H. rewrite He in H. simpl in H.
  rewrite Hn in H. simpl in H. rewrite Hv in H. simpl in H.
  match type of H with
  | bind ?c _ = _ => destruct c as [[[ib pen] out]|] eqn:El; simpl in H; [|discriminate]
  end.
  inversion H; subst result. simpl.
  destruct (check_loop_keeps _ _ _ _ _ _ _ El) as [F [s N]]. simpl in F, N.
  split; [apply F; reflexivity|]. exists s. exact N.
Qed.

(* ------------------------------------------------------------------ *)
(** ** PSF shape model: range and normalisation of [MoffatGauss.evaluate] *)














(* ------------------------------------------------------------------ *)
(** ** Profile/polynomial transform: the round trip *)

Lemma legval_series (pixels c : list Q) :
  c <> [] -> legval pixels c = Some (map (fun x => series x c) pixels).
Proof.
  destruct c; [congruence | reflexivity].
Qed.

Lemma square_nonneg (z : Q) : 0 <= z * z.
Proof. nra. Qed.

Lemma square_zero (z : Q) : z * z == 0 -> z == 0.
Proof. intro H. nra. Qed.

Lemma residual_nonneg (pixels y w c : list Q) : 0 <= residual pixels y w c.
Proof.
  unfold residual, sum.
  induction (combine (combine pixels y) w) as [|[[x yi] wi] l IH];
    cbn [map fold_right]; [apply Qle_refl|].
  pose proof (square_nonneg (wi * (yi - series x c))).
  lra.
Qed.

(** A fit that reproduces the column has no residual. *)
Lemma residual_of_exact_fit (pixels y w c : list Q) :
  Forall2 Qeq (map (fun x => series x c) pixels) y -> residual pixels y w c == 0.
Proof.
  unfold residual, sum. revert y w.
  induction pixels as [|x pixels IH]; intros y w H; simpl in *.
  - inversion H. reflexivity.
  - inversion H as [|? yi ? y' E H']; subst. destruct w as [|wi w]; simpl; [reflexivity|].
    rewrite (IH _ w H'). rewrite E. ring.
Qed.

(** With weights that do not vanish, a fit without residual reproduces the
    column. *)
Lemma exact_fit_of_residual (c : list Q) :
  forall pixels y w : list Q,
    List.length y = List.length pixels -> List.length w = List.length pixels ->
    Forall (fun wi => ~ wi == 0) w ->
    residual pixels y w c <= 0 ->
    Forall2 Qeq (map (fun x => series x c) pixels) y.
Proof.
  induction pixels as [|x pixels IH]; intros [|yi y] [|wi w] Ly Lw Hw Hr;
    simpl in *; try discriminate; [constructor|].
  inversion Hw as [|? ? Hwi Hw']; subst.
  pose proof (residual_nonneg pixels y w c) as Hn.
  unfold residual, sum in Hr, Hn. simpl in Hr.
  set (e := yi - series x c) in *.
  pose proof (square_nonneg (wi * e)) as Hsq.
  constructor.
  - assert (Z : (wi * e) * (wi * e) == 0) by lra.
    assert (Z2 : wi * e == 0) by (apply square_zero; exact Z).
    assert (Z3 : e == 0).
    { destruct (Qeq_dec e 0) as [|Ne]; [assumption|].
      exfalso. apply Hwi. apply (Qmult_integral_l e); [exact Ne|].
      rewrite Qmult_comm. exact Z2. }
    unfold e in Z3. lra.
  - apply (IH y w); [congruence | congruence | exact Hw' |].
    unfold residual, sum. lra.
Qed.

Lemma Forall2_Qeq_refl (l : list Q) : Forall2 Qeq l l.
Proof.
  induction l; constructor; [reflexivity | assumption].
Qed.

Lemma linspace_length (n : nat) : List.length (linspace n) = n.
Proof.
  unfold linspace, arange. rewrite length_map. apply length_seq.
Qed.

Lemma slice_middle {A : Type} (pre c post : list A) (a n : nat) :
  List.length pre = a -> List.length c = n -> slice a n (pre ++ c ++ post) = c.
Proof.
  intros Ha Hn. unfold slice. subst a n.
  rewrite skipn_app, skipn_all, Nat.sub_diag. simpl.
  rewrite firstn_app, firstn_all, Nat.sub_diag. simpl. apply app_nil_r.
Qed.

Lemma amplitude_columns_none (names : list string) :
  forall cols : table,
    ~ In "amplitude"%string names -> List.length cols = List.length names ->
    ChromaticPSF.amplitude_columns names cols = Some [].
Proof.
  induction names as [|name names IH]; intros [|col cols] Hn L; simpl in *;
    try discriminate; [reflexivity|].
  rewrite IH; [|tauto|congruence]. simpl.
  destruct (String.eqb name "amplitude") eqn:E; [|reflexivity].
  apply String.eqb_eq in E. exfalso. apply Hn. left. exact E.
Qed.

(** Fitting the shape columns and expanding the coefficients gives the
    columns back when every fit is exact. *)
Lemma fit_then_expand (legfit : list Q -> list Q -> nat -> list Q -> option (list Q))
      (degs : degrees_dict) (len : nat) (pixels weights : list Q) :
  forall (names : list string) (cols : table),
    ~ In "amplitude"%string names ->
    Forall2 (exactly_fitted legfit degs pixels weights) names cols ->
    exists fits : list Q,
      ChromaticPSF.fit_columns legfit degs pixels (Some weights) names cols = Some fits
      /\ (names <> [] -> fits <> [])
      /\ forall (poly pre : list Q) (shift : nat),
          poly = pre ++ fits -> List.length pre = (len + shift)%nat ->
          (len < List.length poly)%nat ->
          exists t : table,
            ChromaticPSF.expand_columns degs len pixels poly shift names = Some t
            /\ table_eq t cols.
Proof.
  intros names cols Hn H. induction H as [|name col names cols Hfit _ IH].
  - exists []. split; [reflexivity|]. split; [congruence|].
    intros poly pre shift _ _ _. exists []. split; [reflexivity | constructor].
  - destruct IH as [fits' [Ef [_ Ex]]]; [intro; apply Hn; right; assumption|].
    destruct Hfit as [d [c [Ed [Ec [Lc Hc]]]]].
    assert (Ea : String.eqb name "amplitude" = false).
    { apply String.eqb_neq. intro E. apply Hn. left. exact E. }
    exists (c ++ fits'). simpl. rewrite Ea. simpl. rewrite Ed. simpl. rewrite Ec. simpl.
    rewrite Ef. simpl. split; [reflexivity|].
    split.
    { intros _ E. destruct c; [simpl in Lc; lia | discriminate E]. }
    intros poly pre shift Ep Lp Hlen.
    apply Nat.ltb_lt in Hlen. rewrite Hlen.
    assert (Es : slice (len + shift) (d + 1) poly = c).
    { rewrite Ep. apply slice_middle; assumption. }
    rewrite Es.
    rewrite legval_series by (destruct c; [simpl in Lc; lia | discriminate]).
    simpl.
    destruct (Ex poly (pre ++ c) (shift + d + 1)%nat) as [t [Et Tt]].
    + rewrite Ep. apply app_assoc.
    + rewrite length_app. lia.
    + apply Nat.ltb_lt. exact Hlen.
    + rewrite Et. simpl. eexists. split; [reflexivity|].
      constructor; assumption.
Qed.

(** The round trip on a table whose shape columns are exactly fitted. *)
Lemma roundtrip_of_exact_fits
      (legfit : list Q -> list Q -> nat -> list Q -> option (list Q))
      (self : ChromaticPSF_obj) (amplitude : list Q) (cols : table) (rest : list string) :
  param_names (psf self) = "amplitude"%string :: rest ->
  ~ In "amplitude"%string rest -> rest <> [] ->
  List.length amplitude = table_len self ->
  Forall2 (exactly_fitted legfit (degrees self) (linspace (table_len self)) amplitude)
          rest cols ->
  exists (poly_params : list Q) (t : table),
    ChromaticPSF.from_profile_params_to_poly_params legfit self (amplitude :: cols)
    = Some poly_params
    /\ ChromaticPSF.from_poly_params_to_profile_params self poly_params false = Some t
    /\ table_eq t (amplitude :: cols).
Proof.
  intros Hn Hr Hne La Hf.
  destruct (fit_then_expand legfit (degrees self) (table_len self)
                            (linspace (table_len self)) amplitude rest cols Hr Hf)
    as [fits [Ef [Nf Ex]]].
  assert (Lc : List.length cols = List.length rest).
  { symmetry. eapply Forall2_length. exact Hf. }
  exists (amplitude ++ fits).
  assert (Hlen : (table_len self < List.length (amplitude ++ fits))%nat).
  { rewrite length_app. specialize (Nf Hne). destruct fits; [congruence | simpl; lia]. }
  destruct (Ex (amplitude ++ fits) amplitude 0%nat) as [t [Et Tt]];
    [reflexivity | lia | exact Hlen |].
  exists (amplitude :: t).
  split; [|split].
  - unfold ChromaticPSF.from_profile_params_to_poly_params. rewrite Hn. simpl.
    rewrite (amplitude_columns_none rest cols Hr Lc). simpl.
    rewrite Ef. simpl. rewrite app_nil_r. reflexivity.
  - unfold ChromaticPSF.from_poly_params_to_profile_params. rewrite Hn. simpl.
    rewrite Et. simpl. apply Nat.ltb_lt in Hlen. rewrite Hlen.
    rewrite firstn_app, <- La, firstn_all, Nat.sub_diag. simpl.
    rewrite app_nil_r. reflexivity.
  - constructor; [apply Forall2_Qeq_refl | exact Tt].
Qed.

(** *** Polynomials and their roots *)

Lemma peval_padd (x : Q) :
  forall m n : list Q, peval (padd m n) x == peval m x + peval n x.
Proof.
  induction m as [|a m IH]; intros [|b n]; cbn [padd peval fold_right]; try ring.
  fold (peval (padd m n) x). fold (peval m x). fold (peval n x). rewrite IH. ring.
Qed.

Lemma peval_pscale (k x : Q) (m : list Q) : peval (pscale k m) x == k * peval m x.
Proof.
  unfold pscale, peval. induction m as [|a m IH]; cbn [map fold_right]; [ring|].
  rewrite IH. ring.
Qed.

Lemma peval_cons (a x : Q) (m : list Q) : peval (a :: m) x = a + x * peval m x.
Proof. reflexivity. Qed.

Lemma padd_length (m n : list Q) :
  List.length (padd m n) = Nat.max (List.length m) (List.length n).
Proof.
  revert n. induction m as [|a m IH]; intros [|b n]; simpl; try reflexivity.
  rewrite IH. reflexivity.
Qed.

Lemma pscale_length (k : Q) (m : list Q) : List.length (pscale k m) = List.length m.
Proof. apply length_map. Qed.

(** Division by [x - r]: quotient and remainder. *)
Lemma pdiv_correct (r x : Q) :
  forall m : list Q,
    peval m x == (x - r) * peval (fst (pdiv r m)) x + snd (pdiv r m).
Proof.
  induction m as [|a m IH]; [cbn; ring|].
  cbn [pdiv]. destruct m as [|b m']; [cbn; ring|].
  destruct (pdiv r (b :: m')) as [q rem] eqn:E.
  cbn [fst snd] in *. rewrite (peval_cons a), (peval_cons rem), IH. ring.
Qed.

Lemma pdiv_length (r : Q) :
  forall m : list Q, List.length (fst (pdiv r m)) = Nat.pred (List.length m).
Proof.
  induction m as [|a m IH]; [reflexivity|].
  cbn [pdiv]. destruct m as [|b m']; [reflexivity|].
  destruct (pdiv r (b :: m')) as [q rem] eqn:E.
  cbn [fst] in *. simpl in *. rewrite IH. reflexivity.
Qed.

(** A polynomial with more distinct roots than coefficients vanishes
    everywhere. *)
Lemma polynomial_roots :
  forall (roots m : list Q),
    (List.length m <= List.length roots)%nat -> distinct roots ->
    (forall r, In r roots -> peval m r == 0) ->
    forall x : Q, peval m x == 0.
Proof.
  induction roots as [|r roots IH]; intros m L D H x.
  - destruct m; [reflexivity | simpl in L; lia].
  - destruct D as [Dr D].
    pose proof (pdiv_correct r r m) as Hr.
    rewrite (H r (or_introl eq_refl)) in Hr.
    assert (Rem : snd (pdiv r m) == 0) by lra.
    assert (Q0 : forall y, peval (fst (pdiv r m)) y == 0).
    { apply IH.
      - rewrite pdiv_length. simpl in L. lia.
      - exact D.
      - intros s Hs.
        pose proof (pdiv_correct r s m) as E.
        rewrite (H s (or_intror Hs)), Rem in E.
        assert (N : ~ s - r == 0) by (intro Z; apply (Dr s Hs); lra).
        destruct (Qeq_dec (peval (fst (pdiv r m)) s) 0) as [|Ne]; [assumption|].
        exfalso. apply N. apply (Qmult_integral_l (peval (fst (pdiv r m)) s)); [exact Ne|].
        rewrite Qmult_comm. lra. }
    rewrite (pdiv_correct r x m), Q0, Rem. ring.
Qed.

(** *** The Legendre series as a polynomial *)

Lemma clenshaw_poly_correct (x : Q) :
  forall (rest p0 p1 : list Q) (c0 c1 : Q),
    c0 == peval p0 x -> c1 == peval p1 x ->
    fst (clenshaw x rest c0 c1) == peval (fst (clenshaw_poly rest p0 p1)) x
    /\ snd (clenshaw x rest c0 c1) == peval (snd (clenshaw_poly rest p0 p1)) x.
Proof.
  induction rest as [|ci rest IH]; intros p0 p1 c0 c1 E0 E1.
  - split; assumption.
  - cbn [clenshaw clenshaw_poly]. apply IH.
    + rewrite peval_padd, peval_pscale, E1. cbn [peval fold_right]. unfold Qdiv. ring.
    + rewrite peval_padd, peval_pscale, peval_cons, E0, E1. unfold Qdiv. ring.
Qed.

Lemma clenshaw_poly_length :
  forall (rest p0 p1 : list Q) (k : nat),
    (1 <= k)%nat -> (List.length p0 <= k)%nat -> (List.length p1 <= k)%nat ->
    (List.length (fst (clenshaw_poly rest p0 p1)) <= k + List.length rest)%nat
    /\ (List.length (snd (clenshaw_poly rest p0 p1)) <= k + List.length rest)%nat.
Proof.
  induction rest as [|ci rest IH]; intros p0 p1 k Hk L0 L1.
  - simpl. lia.
  - cbn [clenshaw_poly List.length].
    replace (k + S (List.length rest))%nat with (S k + List.length rest)%nat by lia.
    apply IH; [lia | |].
    + rewrite padd_length, pscale_length. cbn [List.length]. lia.
    + rewrite padd_length, pscale_length. cbn [List.length]. lia.
Qed.

Lemma series_poly_correct (x : Q) (c : list Q) : series x c == peval (series_poly c) x.
Proof.
  unfold series, legval1, series_poly.
  destruct (rev c) as [|c1 [|c0 rest]].
  - reflexivity.
  - cbn. ring.
  - destruct (clenshaw_poly_correct x rest [c0] [c1] c0 c1) as [H0 H1];
      [cbn; ring | cbn; ring |].
    destruct (clenshaw x rest c0 c1) as [v0 v1].
    destruct (clenshaw_poly rest [c0] [c1]) as [q0 q1].
    cbn [fst snd] in H0, H1.
    rewrite peval_padd, peval_cons, H0, H1. ring.
Qed.

Lemma series_poly_length (c : list Q) :
  (List.length (series_poly c) <= List.length c)%nat.
Proof.
  unfold series_poly. rewrite <- (length_rev c).
  destruct (rev c) as [|c1 [|c0 rest]]; [simpl; lia | simpl; lia|].
  destruct (clenshaw_poly_length rest [c0] [c1] 1) as [L0 L1]; try (simpl; lia).
  destruct (clenshaw_poly rest [c0] [c1]) as [q0 q1]. cbn [fst snd] in L0, L1.
  rewrite padd_length. cbn [List.length] in *. lia.
Qed.

(** Two Legendre series of at most [d + 1] coefficients that agree at
    [d + 1] distinct points agree everywhere. *)
Lemma series_determined (c c0 roots : list Q) :
  (List.length c <= List.length roots)%nat ->
  (List.length c0 <= List.length roots)%nat ->
  distinct roots ->
  (forall r, In r roots -> series r c == series r c0) ->
  forall x : Q, series x c == series x c0.
Proof.
  intros L L0 D H x.
  pose proof (polynomial_roots roots
                (padd (series_poly c) (pscale (-1) (series_poly c0)))) as P.
  assert (E : forall y, peval (padd (series_poly c) (pscale (-1) (series_poly c0))) y
                        == series y c - series y c0).
  { intro y. rewrite peval_padd, peval_pscale, <- !series_poly_correct. ring. }
  assert (Z : peval (padd (series_poly c) (pscale (-1) (series_poly c0))) x == 0).
  { apply P.
    - rewrite padd_length, pscale_length.
      pose proof (series_poly_length c). pose proof (series_poly_length c0). lia.
    - exact D.
    - intros r Hr. rewrite E, (H r Hr). ring. }
  rewrite E in Z. lra.
Qed.

(** *** The pixels *)

Lemma Qnat_injective (i j : nat) : Qnat i == Qnat j -> i = j.
Proof.
  unfold Qnat. intro H. apply Znat.Nat2Z.inj. apply inject_Z_injective. exact H.
Qed.

Lemma linspace_distinct (n : nat) : distinct (linspace n).
Proof.
  unfold linspace, arange.
  set (f := fun i : nat => -1 + Qnat i * (2 / Qnat (n - 1))).
  assert (Inj : forall i j, (i < n)%nat -> (j < n)%nat -> f i == f j -> i = j).
  { intros i j Hi Hj E. unfold f in E.
    destruct (Nat.le_gt_cases n 1) as [Hn|Hn]; [lia|].
    assert (Hp : 0 < Qnat (n - 1)).
    { unfold Qnat. change 0 with (inject_Z 0). rewrite <- Zlt_Qlt. lia. }
    apply Qnat_injective.
    assert (Hs : 0 < 2 / Qnat (n - 1)) by (apply Qlt_shift_div_l; lra).
    nra. }
  assert (G : forall k s, (s + k <= n)%nat -> distinct (map f (seq s k))).
  { induction k as [|k IH]; intros s Hs; [exact I|].
    cbn [seq map distinct]. split; [|apply IH; lia].
    intros y Hy E. apply in_map_iff in Hy. destruct Hy as [j [Ey Hj]].
    apply in_seq in Hj. subst y.
    assert (j = s) by (apply Inj; [lia | lia | exact E]). lia. }
  apply (G n 0%nat). lia.
Qed.

(** *** Fits of columns that are series *)

Lemma Forall2_nth_error {A B : Type} (R : A -> B -> Prop) :
  forall (l : list A) (m : list B) (k : nat) (a : A) (b : B),
    Forall2 R l m -> nth_error l k = Some a -> nth_error m k = Some b -> R a b.
Proof.
  intros l m k a b H. revert k. induction H as [|x y l m Hxy _ IH]; intros [|k] Ha Hb;
    simpl in *; try discriminate.
  - inversion Ha; inversion Hb; subst. exact Hxy.
  - apply (IH k); assumption.
Qed.

(** A fit without residual reproduces the column at every pixel whose
    weight is not zero. *)
Lemma residual_zero_at_weighted_pixels (c : list Q) :
  forall pixels y w : list Q,
    List.length y = List.length pixels -> List.length w = List.length pixels ->
    residual pixels y w c <= 0 ->
    forall (i : nat) (x yi wi : Q),
      nth_error pixels i = Some x -> nth_error y i = Some yi -> nth_error w i = Some wi ->
      ~ wi == 0 -> series x c == yi.
Proof.
  induction pixels as [|x0 pixels IH]; intros [|y0 y] [|w0 w] Ly Lw Hr i x yi wi Hx Hy Hw Hn;
    simpl in *; try discriminate; [destruct i; discriminate|].
  pose proof (residual_nonneg pixels y w c) as Hnn.
  unfold residual, sum in Hr, Hnn. simpl in Hr.
  set (e := y0 - series x0 c) in *.
  pose proof (square_nonneg (w0 * e)) as Hsq.
  destruct i as [|i]; simpl in Hx, Hy, Hw.
  - inversion Hx; inversion Hy; inversion Hw; subst.
    assert (Z : (wi * e) * (wi * e) == 0) by lra.
    assert (Z2 : wi * e == 0) by (apply square_zero; exact Z).
    assert (Z3 : e == 0).
    { destruct (Qeq_dec e 0) as [|Ne]; [assumption|].
      exfalso. apply Hn. apply (Qmult_integral_l e); [exact Ne|].
      rewrite Qmult_comm. exact Z2. }
    unfold e in Z3. lra.
  - apply (IH y w) with (i := i) (wi := wi); try congruence; try assumption.
    unfold residual, sum. lra.
Qed.

(** The pixels whose weight is not zero: as many as [count_nonzero]
    counts, pairwise distinct when the pixels are. *)
Lemma weighted_pixels :
  forall pixels w : list Q,
    List.length w = List.length pixels -> distinct pixels ->
    exists roots : list Q,
      List.length roots = count_nonzero w
      /\ distinct roots
      /\ forall r, In r roots ->
           In r pixels
           /\ exists (i : nat) (wi : Q),
               nth_error pixels i = Some r /\ nth_error w i = Some wi /\ ~ wi == 0.
Proof.
  induction pixels as [|x pixels IH]; intros [|wi w] L D; simpl in L; try discriminate.
  - exists []. split; [reflexivity|]. split; [exact I|]. intros r [].
  - destruct D as [Dx D].
    destruct (IH w ltac:(congruence) D) as [roots [Lr [Dr Hr]]].
    unfold count_nonzero. cbn [filter].
    destruct (Qeq_bool wi 0) eqn:E; cbn [negb].
    + exists roots. split; [exact Lr|]. split; [exact Dr|].
      intros r Hin. destruct (Hr r Hin) as [Hp [i [w' [H1 [H2 H3]]]]].
      split; [right; exact Hp|]. exists (S i), w'. simpl. tauto.
    + exists (x :: roots). split; [simpl; f_equal; exact Lr|]. split.
      * split; [|exact Dr]. intros y Hy. apply Dx. apply (Hr y Hy).
      * intros r [Er|Hin].
        -- subst r. split; [left; reflexivity|]. exists 0%nat, wi. simpl.
           split; [reflexivity|]. split; [reflexivity|].
           intro Z. apply Qeq_bool_iff in Z. congruence.
        -- destruct (Hr r Hin) as [Hp [i [w' [H1 [H2 H3]]]]].
           split; [right; exact Hp|]. exists (S i), w'. simpl. tauto.
Qed.

(** With enough weighted pixels, a least-squares fit of a column that is a
    series of the same degree reproduces the column at every pixel. *)
Lemma exact_fit_of_series (c c0 : list Q) (d : nat) :
  forall pixels y w : list Q,
    distinct pixels ->
    List.length y = List.length pixels -> List.length w = List.length pixels ->
    List.length c = (d + 1)%nat -> List.length c0 = (d + 1)%nat ->
    (d < count_nonzero w)%nat ->
    Forall2 Qeq (map (fun x => series x c0) pixels) y ->
    residual pixels y w c <= 0 ->
    Forall2 Qeq (map (fun x => series x c) pixels) y.
Proof.
  intros pixels y w D Ly Lw Lc L0 Hcount H0 Hr.
  destruct (weighted_pixels pixels w Lw D) as [roots [Lroots [Droots Hroots]]].
  assert (Agree : forall x, series x c == series x c0).
  { apply (series_determined c c0 roots); try lia; [exact Droots|].
    intros r Hin. destruct (Hroots r Hin) as [_ [i [wi [Hx [Hw Hn]]]]].
    assert (Hi : (i < List.length y)%nat).
    { rewrite Ly. apply nth_error_Some. congruence. }
    destruct (nth_error y i) as [yi|] eqn:Hy; [|apply nth_error_None in Hy; lia].
    rewrite (residual_zero_at_weighted_pixels c pixels y w Ly Lw Hr i r yi wi Hx Hy Hw Hn).
    symmetry.
    apply (Forall2_nth_error Qeq _ _ i _ _ H0); [|exact Hy].
    rewrite nth_error_map, Hx. reflexivity. }
  clear - Agree H0. revert y H0.
  induction pixels as [|x pixels IH]; intros y H0; inversion H0; subst; constructor.
  - rewrite Agree. assumption.
  - apply IH. assumption.
Qed.

(** C1. For a PSF whose first parameter is the amplitude, take a table
    whose shape columns are Legendre series of their degree on the pixels,
    with amplitudes that determine the fits: none is zero, or for every
    column of degree [d] at least [d + 1] are not.  If [legfit] returns
    weighted least-squares fits for these columns, the table is first turned
    into a polynomial vector and that vector is expanded into a table equal
    to the first one, entry by entry. *)
Theorem roundtrip_on_polynomial_tables :
  forall (legfit : list Q -> list Q -> nat -> list Q -> option (list Q))
         (self : ChromaticPSF_obj) (amplitude : list Q) (cols : table)
         (rest : list string),
    param_names (psf self) = "amplitude"%string :: rest ->
    ~ In "amplitude"%string rest -> rest <> [] ->
    List.length amplitude = table_len self ->
    Forall2 (fitted_by_least_squares legfit (degrees self) (linspace (table_len self))
                                     amplitude) rest cols ->
    exists (poly_params : list Q) (t : table),
      ChromaticPSF.from_profile_params_to_poly_params legfit self (amplitude :: cols)
      = Some poly_params
      /\ ChromaticPSF.from_poly_params_to_profile_params self poly_params false = Some t
      /\ table_eq t (amplitude :: cols).
Proof.
  intros legfit self amplitude cols rest Hn Hr Hne La Hf.
  apply (roundtrip_of_exact_fits legfit self amplitude cols rest Hn Hr Hne La).
  eapply Forall2_impl; [|exact Hf].
  intros name col [Lcol [d [c [Ed [Hw [Ec [[Lc Hmin] [c0 [L0 H0]]]]]]]]].
  exists d, c. repeat split; try assumption.
  assert (Lw : List.length amplitude = List.length (linspace (table_len self)))
    by (rewrite linspace_length; exact La).
  assert (Hres : residual (linspace (table_len self)) col amplitude c <= 0).
  { rewrite <- (residual_of_exact_fit _ _ amplitude _ H0). apply Hmin. exact L0. }
  destruct Hw as [Hw | Hw].
  - apply exact_fit_of_residual with (w := amplitude); assumption.
  - apply (exact_fit_of_series c c0 d) with (w := amplitude); try assumption.
    apply linspace_distinct.
Qed.

(** Three pixels, degree 1, and a first amplitude of zero, as in the test
    parameters of the repository: two amplitudes are left for fits of two
    coefficients. *)
Lemma roundtrip_on_polynomial_tables_witness :
  let self := ChromaticPSF.init (MoffatGauss.init None) 3 4 1 8000 in
  let P := [[0; 50; 100]; [0; 0; 0]; [1; 2; 3]; [5; 5; 5]; [2; 2; 2]; [-1; -1; -1];
            [2; 3; 4]; [8000; 8000; 8000]] in
  exists (poly_params : list Q) (t : table),
    ChromaticPSF.from_profile_params_to_poly_params legfit_last_two self P = Some poly_params
    /\ ChromaticPSF.from_poly_params_to_profile_params self poly_params false = Some t
    /\ table_eq t P.
Proof.
  intros self P.
  apply (roundtrip_on_polynomial_tables legfit_last_two self [0; 50; 100]
           [[0; 0; 0]; [1; 2; 3]; [5; 5; 5]; [2; 2; 2]; [-1; -1; -1]; [2; 3; 4];
            [8000; 8000; 8000]]
           ["x_mean"; "y_mean"; "gamma"; "alpha"; "eta_gauss"; "stddev"; "saturation"]%string).
  - reflexivity.
  - intro H. simpl in H. repeat (destruct H as [H|H]; [discriminate H|]). exact H.
  - discriminate.
  - reflexivity.
  - repeat (apply Forall2_cons; [|try apply Forall2_nil]);
      (split; [reflexivity|]);
      eexists; eexists;
      (split; [reflexivity|]);
      (split; [right; vm_compute; lia|]);
      (split; [reflexivity|]);
      (split;
       [ split; [reflexivity|];
         intros c' _; apply Qle_trans with 0;
         [ apply Qle_lteq; right; vm_compute; reflexivity | apply residual_nonneg ]
       | match goal with
         | |- polynomial_column _ 1 [_; ?y1; ?y2] => exists [y1; y2 - y1]
         | |- polynomial_column _ 0 [_; ?y1; _] => exists [y1]
         end;
         split; [reflexivity|];
         repeat constructor; vm_compute; reflexivity ]).
Defined.

Lemma residual_zero_weights (c : list Q) :
  forall pixels y w : list Q,
    Forall (fun wi => wi == 0) w -> residual pixels y w c == 0.
Proof.
  unfold residual, sum.
  induction pixels as [|x pixels IH]; intros y w H; [reflexivity|].
  destruct y as [|yi y]; [reflexivity|]. destruct w as [|wi w]; [reflexivity|].
  inversion H as [|? ? Hwi Hw]; subst. cbn [combine map fold_right].
  rewrite (IH y w Hw), Hwi. ring.
Qed.

(** Three pixels at -1, 0, 1 and degree 1 for the shape parameters.  The
    column [0, 1, 0] of [y_mean] is not a series of degree 1 (such a series
    takes at 0 the mean of its values at -1 and 1), so no polynomial vector
    expands to a table within 1/2 of this one, whatever [legfit] returns.
    And on a table of constant columns whose amplitudes are all zero, every
    vector of coefficients is a least-squares fit; with the fit of least
    norm, the zero series, the table that comes back has [y_mean = 0], not
    1.  With one amplitude that is not zero and degree 1, the least-squares
    fit of least norm of the column [1, 2, 3] is the series [3/2 + 3/2 x],
    which gives back [0, 3/2, 3]. *)
Lemma roundtrip_needs_series_and_weights :
  (let self := ChromaticPSF.init (MoffatGauss.init None) 3 4 1 8000 in
   let P := [[1; 1; 1]; [0; 1; 2]; [0; 1; 0]; [3; 3; 3]; [2; 2; 2]; [0; 0; 0]; [1; 1; 1];
             [8000; 8000; 8000]] in
   ~ (exists (legfit : list Q -> list Q -> nat -> list Q -> option (list Q))
             (poly_params : list Q) (t : table),
         ChromaticPSF.from_profile_params_to_poly_params legfit self P = Some poly_params
         /\ ChromaticPSF.from_poly_params_to_profile_params self poly_params false = Some t
         /\ table_close (1 # 2) t P))
  /\ (let self := ChromaticPSF.init (MoffatGauss.init None) 3 4 1 8000 in
      let amplitude := [0; 0; 0] in
      let cols := [[0; 0; 0]; [1; 1; 1]; [3; 3; 3]; [2; 2; 2]; [0; 0; 0]; [1; 1; 1];
                   [8000; 8000; 8000]] in
      Forall2 (fun name col =>
                 exists (d : nat) (c : list Q),
                   dict_get (degrees self) name = Some d
                   /\ legfit_zero (linspace 3) col d amplitude = Some c
                   /\ least_squares_fit (linspace 3) col amplitude d c
                   /\ polynomial_column (linspace 3) d col)
              ["x_mean"; "y_mean"; "gamma"; "alpha"; "eta_gauss"; "stddev";
               "saturation"]%string cols
      /\ exists (poly_params : list Q) (t : table),
          ChromaticPSF.from_profile_params_to_poly_params legfit_zero self (amplitude :: cols)
          = Some poly_params
          /\ ChromaticPSF.from_poly_params_to_profile_params self poly_params false = Some t
          /\ ~ table_close (1 # 2) t (amplitude :: cols))
  /\ (let self := ChromaticPSF.init (MoffatGauss.init None) 3 4 1 8000 in
      let amplitude := [0; 0; 5] in
      let cols := [[0; 0; 0]; [1; 2; 3]; [3; 3; 3]; [2; 2; 2]; [0; 0; 0]; [1; 1; 1];
                   [8000; 8000; 8000]] in
      Forall2 (fun name col =>
                 exists (d : nat) (c : list Q),
                   dict_get (degrees self) name = Some d
                   /\ legfit_last_one (linspace 3) col d amplitude = Some c
                   /\ least_squares_fit (linspace 3) col amplitude d c
                   /\ polynomial_column (linspace 3) d col)
              ["x_mean"; "y_mean"; "gamma"; "alpha"; "eta_gauss"; "stddev";
               "saturation"]%string cols
      /\ exists (poly_params : list Q) (t : table),
          ChromaticPSF.from_profile_params_to_poly_params legfit_last_one self
            (amplitude :: cols) = Some poly_params
          /\ ChromaticPSF.from_poly_params_to_profile_params self poly_params false = Some t
          /\ ~ table_close (1 # 2) t (amplitude :: cols)).
Proof.
  split; [|split].
  - intros self P [legfit [poly [t [_ [Et Tt]]]]].
    unfold ChromaticPSF.from_poly_params_to_profile_params in Et.
    destruct (ChromaticPSF.expand_columns (degrees self) (table_len self)
                (linspace (table_len self)) poly 0 (param_names (psf self))) as [t0|] eqn:E0;
      simpl in Et; [|discriminate].
    inversion Et; subst t0. clear Et.
    destruct (expand_columns_nth _ _ _ _ _ _ _ E0) as [_ N].
    specialize (N 2%nat "y_mean"%string eq_refl).
    pose proof (Forall2_nth_error _ _ _ 2%nat _ [0; 1; 0] Tt N eq_refl) as H.
    clear - H. unfold expanded_column in H.
    change (String.eqb "y_mean" "amplitude") with false in H.
    change (dict_get (degrees self) "y_mean") with (Some 1%nat) in H.
    cbv iota beta in H.
    match type of H with
    | Forall2 _ (legval_or_zeros _ _ ?s) _ =>
        assert (L : (List.length s <= 2)%nat) by (unfold slice; apply firstn_le_length);
        destruct s as [|a [|b [|c s']]]; [| | |simpl in L; lia]
    end.
    + unfold legval_or_zeros in H. cbn -[Qabs Qlt Qplus Qmult Qminus Qopp] in H.
      inversion H as [|? ? ? ? _ H1]; subst.
      inversion H1 as [|? ? ? ? E _]; subst.
      apply Qabs_Qlt_condition in E. lra.
    + unfold legval_or_zeros in H.
      change (linspace (table_len self)) with [-2 # 2; 0 # 2; 2 # 2] in H.
      cbn -[Qabs Qlt Qplus Qmult Qminus Qopp] in H.
      inversion H as [|? ? ? ? E1 H1]; subst.
      inversion H1 as [|? ? ? ? E2 _]; subst.
      apply Qabs_Qlt_condition in E1, E2. lra.
    + unfold legval_or_zeros in H.
      change (linspace (table_len self)) with [-2 # 2; 0 # 2; 2 # 2] in H.
      cbn -[Qabs Qlt Qplus Qmult Qminus Qopp] in H.
      inversion H as [|? ? ? ? E1 H1]; subst.
      inversion H1 as [|? ? ? ? E2 H2]; subst.
      inversion H2 as [|? ? ? ? E3 _]; subst.
      apply Qabs_Qlt_condition in E1, E2, E3. lra.
  - intros self amplitude cols. split.
    + repeat (apply Forall2_cons; [|try apply Forall2_nil]);
        eexists; eexists;
        (split; [reflexivity|]); (split; [reflexivity|]);
        (split;
         [ split; [reflexivity|];
           intros c' _;
           rewrite !residual_zero_weights by (repeat constructor; reflexivity);
           apply Qle_refl
         | match goal with
           | |- polynomial_column _ 1 (?v :: _) => exists [v; 0]
           | |- polynomial_column _ 0 (?v :: _) => exists [v]
           end;
           split; [reflexivity|];
           repeat constructor; vm_compute; reflexivity ]).
    + eexists. eexists. split; [reflexivity|]. split; [reflexivity|].
      intro H.
      pose proof (Forall2_nth_error _ _ _ 2%nat _ [1; 1; 1] H eq_refl eq_refl) as H2.
      inversion H2 as [|? ? ? ? E _]; subst.
      apply Qabs_Qlt_condition in E. vm_compute in E. destruct E as [E _]. discriminate E.
  - intros self amplitude cols. split.
    + repeat (apply Forall2_cons; [|try apply Forall2_nil]);
        eexists; eexists;
        (split; [reflexivity|]); (split; [reflexivity|]);
        (split;
         [ split; [reflexivity|];
           intros c' _; apply Qle_trans with 0;
           [ apply Qle_lteq; right; vm_compute; reflexivity | apply residual_nonneg ]
         | match goal with
           | |- polynomial_column _ 1 [?y0; ?y1; _] => exists [y1; y1 - y0]
           | |- polynomial_column _ 0 (?v :: _) => exists [v]
           end;
           split; [reflexivity|];
           repeat constructor; vm_compute; reflexivity ]).
    + eexists. eexists. split; [reflexivity|]. split; [reflexivity|].
      intro H.
      pose proof (Forall2_nth_error _ _ _ 2%nat _ [1; 2; 3] H eq_refl eq_refl) as H2.
      inversion H2 as [|? ? ? ? E _]; subst.
      apply Qabs_Qlt_condition in E. vm_compute in E. destruct E as [E _]. discriminate E.
Qed.

(* ================================================================== *)
(** * Further properties of the code *)

(* ------------------------------------------------------------------ *)
(** ** Bound checker: what it reports *)

Lemma existsb_false_Forall {A : Type} (f : A -> bool) (l : list A) :
  existsb f l = false <-> Forall (fun v => f v = false) l.
Proof.
  induction l as [|a l IH]; simpl.
  - split; [constructor | reflexivity].
  - rewrite orb_false_iff, IH. split.
    + intros [H1 H2]. constructor; assumption.
    + intro H. inversion H. split; assumption.
Qed.

Lemma check_param_within (soft : list bounds) (noise_level : Q) (k : nat)
      (name : string) (col : list Q) (st : ChromaticPSF.check_state) :
  (name = "amplitude"%string -> Forall (fun v => - noise_level <= v) col) ->
  (name <> "amplitude"%string -> name <> "saturation"%string ->
   exists b : bounds, nth_error soft k = Some b /\ Forall (fun v => inside v b) col) ->
  ChromaticPSF.check_param soft noise_level k name col st = Some st.
Proof.
  intros Ha Hs. destruct st as [[ib pen] out]. unfold ChromaticPSF.check_param.
  destruct (String.eqb name "amplitude") eqn:Ea.
  { apply String.eqb_eq in Ea. specialize (Ha Ea).
    assert (E : existsb (fun v => Qlt_bool v (- noise_level)) col = false).
    { apply existsb_false_Forall. eapply Forall_impl; [|exact Ha].
      intros v Hv. apply Qlt_bool_false. exact Hv. }
    rewrite E. reflexivity. }
  destruct (String.eqb name "saturation") eqn:Es; [reflexivity|].
  apply String.eqb_neq in Ea, Es.
  destruct (Hs Ea Es) as [[lo hi] [Eb Hin]]. rewrite Eb. simpl.
  assert (Eh : match hi with
               | Hi h => existsb (fun v => Qgt_bool v h) col = false
               | PosInf => True
               end).
  { destruct hi as [|h]; [exact I|]. apply existsb_false_Forall.
    eapply Forall_impl; [|exact Hin]. intros v [_ Hv]. simpl in Hv.
    unfold Qgt_bool. apply Qlt_bool_false. exact Hv. }
  assert (El : match lo with
               | Lo l => existsb (fun v => Qlt_bool v l) col = false
               | NegInf => True
               end).
  { destruct lo as [|l]; [exact I|]. apply existsb_false_Forall.
    eapply Forall_impl; [|exact Hin]. intros v [Hv _]. simpl in Hv.
    apply Qlt_bool_false. exact Hv. }
  destruct hi as [|h]; destruct lo as [|l]; try rewrite Eh; try rewrite El; reflexivity.
Qed.

Lemma check_loop_within (soft : list bounds) (noise_level : Q) :
  forall (names : list string) (cols : table) (k : nat) (st : ChromaticPSF.check_state),
    List.length cols = List.length names ->
    within_soft soft noise_level k names cols ->
    ChromaticPSF.check_loop soft noise_level k names cols st = Some st.
Proof.
  induction names as [|name names IH]; intros [|col cols] k st L H; simpl in *;
    try discriminate; [reflexivity|].
  destruct (H 0%nat name col eq_refl eq_refl) as [Ha Hs].
  rewrite Nat.add_0_r in Hs.
  rewrite (check_param_within soft noise_level k name col st Ha Hs). simpl.
  apply IH; [congruence|].
  intros i nm c En Ec. specialize (H (S i) nm c En Ec).
  replace (S k + i)%nat with (k + S i)%nat by lia. exact H.
Qed.

(** X1. When the expanded table violates nothing, [check_bounds] returns
    [in_bounds = True], a zero penalty and no offending name. *)
Theorem check_bounds_accepts_tables_within_bounds :
  forall (self : ChromaticPSF_obj) (poly_params : list Q) (noise_level : Q) (t : table),
    ChromaticPSF.from_poly_params_to_profile_params self poly_params false = Some t ->
    within_soft (bounds_soft (psf self)) noise_level 0 (param_names (psf self)) t ->
    exists penalty : Q,
      ChromaticPSF.check_bounds self poly_params noise_level = Some (true, penalty, ""%string)
      /\ penalty == 0.
Proof.
  intros self poly noise t Et Hw.
  assert (L : List.length t = List.length (param_names (psf self))).
  { unfold ChromaticPSF.from_poly_params_to_profile_params in Et.
    destruct (ChromaticPSF.expand_columns (degrees self) (table_len self)
                (linspace (table_len self)) poly 0 (param_names (psf self))) as [t0|] eqn:E0;
      simpl in Et; [|discriminate].
    inversion Et; subst t0. apply (expand_columns_nth _ _ _ _ _ _ _ E0). }
  unfold ChromaticPSF.check_bounds. rewrite Et. simpl.
  rewrite (check_loop_within _ _ _ _ _ _ L Hw). simpl.
  eexists. split; [reflexivity | ring].
Qed.

Lemma check_bounds_accepts_tables_within_bounds_witness :
  exists penalty : Q,
    ChromaticPSF.check_bounds (ChromaticPSF.init (MoffatGauss.init None) 2 3 0 8000)
      [1; 1; 0; 0; 3; 2; 0; 1; 8000] 0 = Some (true, penalty, ""%string)
    /\ penalty == 0.
Proof.
  eapply (check_bounds_accepts_tables_within_bounds
            (ChromaticPSF.init (MoffatGauss.init None) 2 3 0 8000)
            [1; 1; 0; 0; 3; 2; 0; 1; 8000] 0).
  - vm_compute. reflexivity.
  - intros i name col En Ec.
    do 8 (destruct i as [|i];
          [ simpl in En, Ec; inversion En; inversion Ec; subst;
            (split; [intro A; try discriminate A | intros A B; try congruence]);
            try (eexists; split; [reflexivity|]);
            repeat constructor; unfold inside; simpl; try exact I;
            vm_compute; try discriminate; try reflexivity
          | ]).
    destruct i; discriminate En.
Defined.

Lemma Qdiv_nonneg (x y : Q) : 0 <= x -> 0 <= y -> 0 <= x / y.
Proof.
  intros Hx Hy. unfold Qdiv. apply Qmult_le_0_compat; [exact Hx|].
  apply Qinv_le_0_compat. exact Hy.
Qed.

Lemma excess_nonneg (f : Q -> Q) (g : Q -> bool) (col : list Q) :
  (forall v, g v = true -> 0 <= f v) -> 0 <= sum (map f (filter g col)).
Proof.
  intro H. unfold sum. induction col as [|v col IH]; simpl; [apply Qle_refl|].
  destruct (g v) eqn:E; [|exact IH]. simpl. specialize (H v E). lra.
Qed.

Lemma add_penalty_nonneg (penalty excess : Q) (col : list Q) :
  0 <= penalty -> 0 <= excess -> 0 <= ChromaticPSF.add_penalty penalty excess col.
Proof.
  intros Hp He. unfold ChromaticPSF.add_penalty.
  destruct (negb (isclose0 (mean col))); [|lra].
  apply Qdiv_nonneg; [lra | apply Qabs_nonneg].
Qed.

(** What one step of the loop keeps: the penalty stays non-negative, and a
    flag still up means that nothing was added or written. *)
Lemma check_param_invariant (soft : list bounds) (noise_level : Q) (k : nat)
      (name : string) (col : list Q) (st st' : ChromaticPSF.check_state) :
  ChromaticPSF.check_param soft noise_level k name col st = Some st' ->
  (0 <= snd (fst st) -> 0 <= snd (fst st'))
  /\ (fst (fst st') = true -> st' = st).
Proof.
  destruct st as [[ib pen] out]. unfold ChromaticPSF.check_param.
  destruct (String.eqb name "amplitude").
  { destruct (existsb _ col); intro H; inversion H; subst; simpl; split;
      try discriminate; auto.
    intro Hp. pose proof (Qabs_nonneg
      (sum (filter (fun v => Qlt_bool v (- noise_level)) col))). lra. }
  destruct (String.eqb name "saturation").
  { intro H; inversion H; subst; simpl; split; auto. }
  destruct (nth_error soft k) as [[lo hi]|]; simpl; [|discriminate].
  assert (Eh : forall h, 0 <= sum (map (fun v => v - h) (filter (fun v => Qgt_bool v h) col))).
  { intro h. apply excess_nonneg. intros v Hv. unfold Qgt_bool in Hv.
    apply Qlt_bool_true in Hv. lra. }
  assert (El : forall l, 0 <= sum (map (fun v => l - v) (filter (fun v => Qlt_bool v l) col))).
  { intro l. apply excess_nonneg. intros v Hv. apply Qlt_bool_true in Hv. lra. }
  destruct hi as [|h]; destruct lo as [|l]; simpl;
    repeat match goal with
      | |- context [existsb ?f col] => destruct (existsb f col)
      end;
    intro H; inversion H; subst; simpl; split; try discriminate; auto;
    intro Hp; repeat apply add_penalty_nonneg; auto.
Qed.

Lemma check_loop_invariant (soft : list bounds) (noise_level : Q) :
  forall (names : list string) (cols : table) (k : nat) (st st' : ChromaticPSF.check_state),
    ChromaticPSF.check_loop soft noise_level k names cols st = Some st' ->
    (0 <= snd (fst st) -> 0 <= snd (fst st'))
    /\ (fst (fst st') = true -> st' = st).
Proof.
  induction names as [|name names IH]; intros cols k st st' H; simpl in H.
  - inversion H; subst. split; auto.
  - destruct cols as [|col cols]; [discriminate|].
    destruct (ChromaticPSF.check_param soft noise_level k name col st) as [st1|] eqn:E1;
      simpl in H; [|discriminate].
    destruct (check_param_invariant _ _ _ _ _ _ _ E1) as [P1 F1].
    destruct (IH _ _ _ _ H) as [P2 F2].
    split; [auto|].
    intro T. specialize (F2 T). subst st'. auto.
Qed.

(** X2. Whatever [check_bounds] returns, the penalty is not negative, and
    when [in_bounds] is [True] the penalty is zero and no name is reported:
    a violation is never recorded without the flag going down. *)
Theorem check_bounds_penalty_sign :
  forall (self : ChromaticPSF_obj) (poly_params : list Q) (noise_level : Q)
         (in_bounds : bool) (penalty : Q) (names : string),
    ChromaticPSF.check_bounds self poly_params noise_level
    = Some (in_bounds, penalty, names) ->
    0 <= penalty /\ (in_bounds = true -> penalty == 0 /\ names = ""%string).
Proof.
  intros self poly noise ib pen out H. unfold ChromaticPSF.check_bounds in H.
  destruct (ChromaticPSF.from_poly_params_to_profile_params self poly false) as [t|];
    simpl in H; [|discriminate].
  match type of H with
  | bind ?c _ = _ => destruct c as [[[ib1 pen1] out1]|] eqn:El; simpl in H; [|discriminate]
  end.
  inversion H; subst. clear H.
  destruct (check_loop_invariant _ _ _ _ _ _ _ El) as [P F]. simpl in P, F.
  assert (Hs : 0 <= Qnat (Nx self) * Qnat (Ny self)).
  { apply Qmult_le_0_compat; unfold Qnat;
      (rewrite <- Zle_Qle || idtac); unfold Qle; simpl; lia. }
  split.
  - apply Qmult_le_0_compat; [apply P; apply Qle_refl | exact Hs].
  - intro T. specialize (F T). inversion F; subst. split; [ring | reflexivity].
Qed.

Lemma check_bounds_penalty_sign_witness :
  0 <= 1248 # 96
  /\ (false = true -> 1248 # 96 == 0 /\ "alpha eta_gauss "%string = ""%string).
Proof.
  apply (check_bounds_penalty_sign
           (ChromaticPSF.init (MoffatGauss.init None) 2 3 0 8000)
           [1; 1; 0; 0; 3; 12; 2; 1; 8000] 0 false (1248 # 96) "alpha eta_gauss ").
  vm_compute. reflexivity.
Defined.

(* ------------------------------------------------------------------ *)
(** ** Amplitude stage: what the priors keep *)

Lemma apply_prior_length (method : prior) (Nx : nat) (a : list Q) :
  List.length (apply_prior method Nx a) = List.length a.
Proof.
  destruct method; simpl; try reflexivity.
  - apply length_map.
  - unfold smooth_negative. apply smooth_fold_length.
Qed.

Lemma apply_prior_frame (method : prior) (Nx : nat) (a : list Q) (x : nat) (v : Q) :
  nth_error a x = Some v -> 0 <= v ->
  nth_error (apply_prior method Nx a) x = Some v.
Proof.
  intros E H.
  destruct method; simpl; try exact E.
  - unfold clip_negative. rewrite nth_error_map, E. simpl.
    destruct (Qlt_bool v 0) eqn:C; [apply Qlt_bool_true in C; exfalso; lra | reflexivity].
  - apply smooth_negative_frame; assumption.
Qed.

(** X3. Whatever the prior method and whatever the raw amplitudes, the
    post-hoc treatment keeps the length of the vector, and it returns every
    entry that is not negative as it is. *)
Theorem priors_keep_nonnegative_amplitudes :
  forall (method : prior) (Nx : nat) (a : list Q),
    List.length (apply_prior method Nx a) = List.length a
    /\ forall (x : nat) (v : Q),
        nth_error a x = Some v -> 0 <= v ->
        nth_error (apply_prior method Nx a) x = Some v.
Proof.
  intros method Nx a. split.
  - apply apply_prior_length.
  - intros x v. apply apply_prior_frame.
Qed.

Lemma priors_keep_nonnegative_amplitudes_witness :
  List.length (apply_prior smooth 4 [-3; -2; -5; -1]) = 4%nat
  /\ nth_error (apply_prior smooth 4 [3; -2; 5; -1]) 2 = Some 5.
Proof.
  split.
  - apply (priors_keep_nonnegative_amplitudes smooth 4 [-3; -2; -5; -1]).
  - apply (priors_keep_nonnegative_amplitudes smooth 4 [3; -2; 5; -1]);
      [reflexivity | lra].
Defined.




(* ------------------------------------------------------------------ *)
(** ** Amplitude stage: the least-squares solve *)
















(** An error of zero leaves no workspace of numbers. *)
Lemma zero_error_divides_by_zero :
  fit_workspace [[3; 6; 3]] [[0; 1; 1]] 1 noprior 1 [] = None.
Proof. reflexivity. Qed.

(* ------------------------------------------------------------------ *)
(** ** Profile/polynomial transform: shape of the table and repeated clipping *)

Lemma clip_hard_idempotent (b : bounds) (v : Q) :
  ChromaticPSF.clip_hard b (ChromaticPSF.clip_hard b v) == ChromaticPSF.clip_hard b v.
Proof.
  destruct b as [[|lo] [|hi]]; unfold ChromaticPSF.clip_hard, Qgt_bool; simpl;
    cmp; try reflexivity; lra.
Qed.

Lemma clip_hard_fixes_inside (b : bounds) (v : Q) :
  inside v b -> ChromaticPSF.clip_hard b v == v.
Proof.
  destruct b as [[|lo] [|hi]]; unfold inside, ChromaticPSF.clip_hard, Qgt_bool; simpl;
    intros [H1 H2]; cmp; try reflexivity; lra.
Qed.

Lemma Forall2_map_left {A : Type} (R : A -> A -> Prop) (f : A -> A) (l : list A) :
  (forall a, In a l -> R (f a) a) -> Forall2 R (map f l) l.
Proof.
  induction l as [|a l IH]; intro H; simpl; constructor.
  - apply H. left. reflexivity.
  - apply IH. intros a' Ha. apply H. right. exact Ha.
Qed.

(** Clipping a table column by column, as a relation between the table
    before and the table after. *)
Lemma clip_columns_relates (R : Q -> Q -> Prop) :
  forall (names : list string) (hard : list bounds) (cols t : table),
    List.length cols = List.length names ->
    ChromaticPSF.clip_columns hard names cols = Some t ->
    (forall (k : nat) (b : bounds) (col : list Q),
        nth_error hard k = Some b -> nth_error cols k = Some col ->
        forall v, In v col -> R (ChromaticPSF.clip_hard b v) v) ->
    Forall2 (Forall2 R) t cols.
Proof.
  induction names as [|name names IH]; intros hard cols t L E H; simpl in E.
  - destruct cols; [|discriminate L]. inversion E; subst. constructor.
  - destruct hard as [|b hard]; [discriminate|].
    destruct cols as [|col cols]; [discriminate|].
    destruct (ChromaticPSF.clip_columns hard names cols) as [rest|] eqn:Er; [|discriminate].
    simpl in E. inversion E; subst t. constructor.
    + apply Forall2_map_left. intros v Hv. apply (H 0%nat b col eq_refl eq_refl v Hv).
    + apply (IH hard cols rest); [simpl in L; congruence | exact Er |].
      intros k b' col' Hb Hc. apply (H (S k) b' col' Hb Hc).
Qed.

Lemma clip_columns_needs_bounds :
  forall (names : list string) (hard : list bounds) (cols t : table),
    ChromaticPSF.clip_columns hard names cols = Some t ->
    (List.length names <= List.length hard)%nat.
Proof.
  induction names as [|n names IH]; intros hard cols t E; simpl in *; [lia|].
  destruct hard as [|b hard]; [discriminate|].
  destruct cols as [|c cols]; [discriminate|].
  destruct (ChromaticPSF.clip_columns hard names cols) as [rest|] eqn:Er; [|discriminate].
  simpl. apply le_n_S. apply (IH hard cols rest Er).
Qed.

(** X8. Hard clipping is idempotent and leaves a table that respects the
    hard bounds as it is: clipping the columns of a clipped table again
    returns an equal table, whatever the bound pairs (ordered or not), and
    clipping a table whose entries all lie inside their bounds returns an
    equal table. *)
Theorem hard_clipping_idempotent :
  forall (self : ChromaticPSF_obj) (poly_params : list Q) (t : table),
    let names := param_names (psf self) in
    let hard := bounds_hard (psf self) in
    ChromaticPSF.from_poly_params_to_profile_params self poly_params true = Some t ->
    (exists t' : table, ChromaticPSF.clip_columns hard names t = Some t' /\ table_eq t' t)
    /\ forall t0 : table,
        ChromaticPSF.from_poly_params_to_profile_params self poly_params false = Some t0 ->
        all_inside hard t0 -> table_eq t t0.
Proof.
  intros self poly t names hard Et.
  unfold ChromaticPSF.from_poly_params_to_profile_params in *.
  destruct (ChromaticPSF.expand_columns (degrees self) (table_len self)
              (linspace (table_len self)) poly 0 (param_names (psf self))) as [t0|] eqn:E0;
    simpl in Et; [|discriminate].
  destruct (expand_columns_nth _ _ _ _ _ _ _ E0) as [L0 _].
  fold names in L0, Et. fold hard in Et.
  pose proof (clip_columns_length _ _ _ _ Et) as Lt.
  split.
  - pose proof (clip_columns_needs_bounds _ _ _ _ Et) as Lh.
    destruct (clip_columns_nth names hard t) as [t' [Et' _]]; [congruence | exact Lh |].
    exists t'. split; [exact Et'|].
    apply (clip_columns_relates Qeq names hard t t'); [congruence | exact Et' |].
    intros k b col Hb Hc v Hv.
    destruct (clip_columns_nth names hard t0 L0 Lh) as [t2 [Et2 N2]].
    rewrite Et in Et2. inversion Et2; subst t2.
    assert (Hk : (k < List.length t0)%nat).
    { rewrite <- Lt. apply nth_error_Some. congruence. }
    destruct (nth_error t0 k) as [col0|] eqn:Ec0; [|apply nth_error_None in Ec0; lia].
    rewrite (N2 k b col0 Hb Ec0) in Hc. inversion Hc; subst col.
    apply in_map_iff in Hv. destruct Hv as [v0 [Ev _]]. subst v.
    apply clip_hard_idempotent.
  - simpl. intros t0' E' Hin. inversion E'; subst t0'.
    apply (clip_columns_relates Qeq names hard t0 t L0 Et).
    intros k b col Hb Hc v Hv. apply clip_hard_fixes_inside.
    specialize (Hin k b col Hb Hc). rewrite Forall_forall in Hin. apply Hin. exact Hv.
Qed.

Lemma hard_clipping_idempotent_witness :
  let self := ChromaticPSF.init (MoffatGauss.init None) 2 3 0 8000 in
  exists t t' : table,
    ChromaticPSF.from_poly_params_to_profile_params self [1; 1; 0; 0; -3; 20; 5; 1; -1] true
    = Some t
    /\ ChromaticPSF.clip_columns (bounds_hard (psf self)) (param_names (psf self)) t = Some t'
    /\ table_eq t' t.
Proof.
  intro self.
  destruct (ChromaticPSF.from_poly_params_to_profile_params self
              [1; 1; 0; 0; -3; 20; 5; 1; -1] true) as [t|] eqn:E;
    [|vm_compute in E; discriminate E].
  destruct (hard_clipping_idempotent self [1; 1; 0; 0; -3; 20; 5; 1; -1] t E)
    as [[t' [E' T]] _].
  exists t, t'. repeat split; assumption.
Defined.

Lemma expand_columns_lengths (degs : degrees_dict) (len : nat) (pixels poly : list Q) :
  List.length pixels = len ->
  forall (names : list string) (shift : nat) (t : table),
    ChromaticPSF.expand_columns degs len pixels poly shift names = Some t ->
    Forall (fun col => List.length col = len) t.
Proof.
  intro Lp. induction names as [|name names IH]; intros shift t H; simpl in H.
  - inversion H. constructor.
  - destruct (String.eqb name "amplitude").
    + destruct (ChromaticPSF.expand_columns degs len pixels poly shift names) as [rest|] eqn:Er;
        simpl in H; [|discriminate].
      inversion H; subst t. constructor; [|apply (IH _ _ Er)].
      destruct (len <? List.length poly)%nat eqn:E.
      * apply Nat.ltb_lt in E. rewrite length_firstn. lia.
      * apply repeat_length.
    + destruct (dict_get degs name) as [d|]; simpl in H; [|discriminate].
      match type of H with
      | bind ?c _ = _ => destruct c as [col|] eqn:Ec; simpl in H; [|discriminate]
      end.
      destruct (ChromaticPSF.expand_columns degs len pixels poly (shift + d + 1) names)
        as [rest|] eqn:Er; simpl in H; [|discriminate].
      inversion H; subst t. constructor; [|apply (IH _ _ Er)].
      destruct (len <? List.length poly)%nat.
      * rewrite (legval_length _ _ _ Ec). exact Lp.
      * destruct (0 <? List.length (slice shift (d + 1) poly))%nat.
        -- rewrite (legval_length _ _ _ Ec). exact Lp.
        -- inversion Ec. apply repeat_length.
Qed.

(** X9. Every table that [from_poly_params_to_profile_params] returns, with
    or without [apply_bounds], has one column per parameter name and one
    entry per pixel of the table in every column. *)
Theorem profile_table_shape :
  forall (self : ChromaticPSF_obj) (poly_params : list Q) (apply_bounds : bool) (t : table),
    ChromaticPSF.from_poly_params_to_profile_params self poly_params apply_bounds = Some t ->
    List.length t = List.length (param_names (psf self))
    /\ Forall (fun col => List.length col = table_len self) t.
Proof.
  intros self poly ab t Et.
  unfold ChromaticPSF.from_poly_params_to_profile_params in Et.
  destruct (ChromaticPSF.expand_columns (degrees self) (table_len self)
              (linspace (table_len self)) poly 0 (param_names (psf self))) as [t0|] eqn:E0;
    simpl in Et; [|discriminate].
  destruct (expand_columns_nth _ _ _ _ _ _ _ E0) as [L0 _].
  pose proof (expand_columns_lengths _ _ _ _ (linspace_length (table_len self)) _ _ _ E0) as F0.
  destruct ab.
  - pose proof (clip_columns_length _ _ _ _ Et) as Lt.
    split; [congruence|].
    pose proof (clip_columns_relates (fun _ _ => True) _ _ _ _ L0 Et
                  (fun _ _ _ _ _ _ _ => I)) as R.
    clear - R F0. induction R as [|c c0 t t0 Hc _ IH]; [constructor|].
    inversion F0; subst. constructor; [|apply IH; assumption].
    rewrite (Forall2_length Hc). assumption.
  - inversion Et; subst t0. split; assumption.
Qed.

Lemma profile_table_shape_witness :
  let self := ChromaticPSF.init (MoffatGauss.init None) 3 4 1 8000 in
  exists t : table,
    ChromaticPSF.from_poly_params_to_profile_params self
      [1; 2; 3; 0; 0; 2; 1; 5; 0; 2; 0; 0; 0; 2; 0; 8000] true = Some t
    /\ List.length t = 8%nat
    /\ Forall (fun col => List.length col = 3%nat) t.
Proof.
  intro self.
  destruct (ChromaticPSF.from_poly_params_to_profile_params self
              [1; 2; 3; 0; 0; 2; 1; 5; 0; 2; 0; 0; 0; 2; 0; 8000] true) as [t|] eqn:E;
    [|vm_compute in E; discriminate E].
  exists t. split; [reflexivity|].
  apply (profile_table_shape self [1; 2; 3; 0; 0; 2; 1; 5; 0; 2; 0; 0; 0; 2; 0; 8000] true t E).
Defined.

(* ------------------------------------------------------------------ *)
(** ** Polynomial degrees *)

Lemma dict_get_set_same (d : degrees_dict) (key : string) (v : nat) :
  dict_get (dict_set d key v) key = Some v.
Proof.
  induction d as [|[k w] d IH]; simpl.
  - rewrite String.eqb_refl. reflexivity.
  - destruct (String.eqb k key) eqn:E; simpl; rewrite E; [reflexivity | exact IH].
Qed.

Lemma dict_get_set_other (d : degrees_dict) (key key' : string) (v : nat) :
  key <> key' -> dict_get (dict_set d key v) key' = dict_get d key'.
Proof.
  intro H. induction d as [|[k w] d IH]; simpl.
  - apply String.eqb_neq in H. rewrite H. reflexivity.
  - destruct (String.eqb k key) eqn:E; simpl.
    + apply String.eqb_eq in E. subst k.
      apply String.eqb_neq in H. rewrite H. reflexivity.
    + destruct (String.eqb k key'); [reflexivity | exact IH].
Qed.

Lemma dict_get_fold_set (deg : nat) (name : string) :
  forall (names : list string) (d : degrees_dict),
    dict_get (fold_left (fun d key => dict_set d key deg) names d) name
    = if existsb (String.eqb name) names then Some deg else dict_get d name.
Proof.
  induction names as [|n names IH]; intro d; simpl; [reflexivity|].
  rewrite IH. destruct (existsb (String.eqb name) names); [rewrite orb_true_r; reflexivity|].
  rewrite orb_false_r. destruct (String.eqb name n) eqn:E.
  - apply String.eqb_eq in E. subst n. apply dict_get_set_same.
  - apply String.eqb_neq in E. apply dict_get_set_other. congruence.
Qed.

(** X10. After [set_polynomial_degrees(deg)] the dictionary gives the degree
    0 to ['saturation'], the degree [deg] to every other parameter name of the
    PSF, and has no entry for any other key. *)
Theorem polynomial_degrees_lookup :
  forall (names : list string) (deg : nat) (name : string),
    dict_get (ChromaticPSF.set_polynomial_degrees names deg) name
    = if String.eqb name "saturation" then Some 0%nat
      else if existsb (String.eqb name) names then Some deg
           else None.
Proof.
  intros names deg name. unfold ChromaticPSF.set_polynomial_degrees.
  destruct (String.eqb name "saturation") eqn:E.
  - apply String.eqb_eq in E. subst name. apply dict_get_set_same.
  - apply String.eqb_neq in E. rewrite dict_get_set_other by congruence.
    apply dict_get_fold_set.
Qed.

(* ------------------------------------------------------------------ *)
(** ** PSF shape model: when [evaluate] fails *)



(* ------------------------------------------------------------------ *)
(** ** Transverse fitter: the fitted columns *)

Lemma not_in_false (x : nat) (l : list nat) : not_in x l = false <-> In x l.
Proof.
  unfold not_in. rewrite negb_false_iff, existsb_exists. split.
  - intros [y [Hy E]]. apply Nat.eqb_eq in E. subst. exact Hy.
  - intro H. exists x. split; [exact H | apply Nat.eqb_refl].
Qed.

Lemma arange_count (a step i : nat) :
  (1 <= step)%nat -> (i < (a + step - 1) / step)%nat <-> (i * step < a)%nat.
Proof.
  intro Hs. split; intro H.
  - pose proof (Nat.Div0.mul_div_le (a + step - 1) step) as D.
    assert (step * S i <= step * ((a + step - 1) / step))%nat
      by (apply Nat.mul_le_mono_l; lia).
    nia.
  - assert (S i <= (a + step - 1) / step)%nat; [|lia].
    apply Nat.div_le_lower_bound; [lia|]. nia.
Qed.

Lemma arange_up_In (start stop step x : nat) :
  (1 <= step)%nat ->
  In x (arange_up start stop step)
  <-> exists i : nat, x = (start + i * step)%nat /\ (x < stop)%nat.
Proof.
  intro Hs. unfold arange_up. rewrite in_map_iff. split.
  - intros [i [E Hi]]. apply in_seq in Hi. exists i. split; [lia|].
    destruct Hi as [_ Hi]. simpl in Hi. apply arange_count in Hi; lia.
  - intros [i [E Hx]]. exists i. split; [lia|]. apply in_seq. split; [lia|]. simpl.
    apply arange_count; lia.
Qed.

Lemma arange_down_In (start step x : nat) :
  (1 <= step)%nat ->
  In x (arange_down start step)
  <-> exists i : nat, x = (start - i * step)%nat /\ (i * step <= start)%nat.
Proof.
  intro Hs. unfold arange_down. rewrite in_map_iff.
  replace (start + step)%nat with (start + 1 + step - 1)%nat by lia.
  split.
  - intros [i [E Hi]]. apply in_seq in Hi. exists i. split; [lia|].
    destruct Hi as [_ Hi]. simpl in Hi. apply arange_count in Hi; lia.
  - intros [i [E Hx]]. exists i. split; [lia|]. apply in_seq. split; [lia|]. simpl.
    apply arange_count; lia.
Qed.

Lemma pixel_range_In (Nx xmax_index pixel_step : nat) (r : list nat) (x : nat) :
  pixel_range Nx xmax_index pixel_step = Some r ->
  In x r <-> In x (arange_up xmax_index Nx pixel_step) \/ x = (Nx - 1)%nat
             \/ In x (arange_down xmax_index pixel_step) \/ x = 0%nat.
Proof.
  unfold pixel_range. destruct (pixel_step =? 0)%nat; [discriminate|].
  intro H. inversion H as [E]. clear H E.
  set (up := arange_up xmax_index Nx pixel_step).
  set (down := arange_down xmax_index pixel_step).
  destruct (not_in (Nx - 1) up) eqn:E1;
    match goal with
    | |- context [not_in 0 ?l] => destruct (not_in 0 l) eqn:E0
    end;
    try apply not_in_false in E1; try apply not_in_false in E0;
    repeat rewrite in_app_iff in *; simpl; split; intro H;
    intuition (subst; auto).
Qed.

(** X12. For a step of at least one pixel and a starting column inside the
    image, the list of fitted columns starts with the column of the maximum,
    holds only columns of the image, always holds the first and the last
    column, and with a step of one holds every column.  A step of zero makes
    [np.arange] raise. *)
Theorem fitted_columns_reach_both_edges :
  forall Nx xmax_index pixel_step : nat,
    (1 <= pixel_step)%nat -> (xmax_index < Nx)%nat ->
    exists rest : list nat,
      pixel_range Nx xmax_index pixel_step = Some (xmax_index :: rest)
      /\ In 0%nat (xmax_index :: rest)
      /\ In (Nx - 1)%nat (xmax_index :: rest)
      /\ Forall (fun x => x < Nx)%nat (xmax_index :: rest)
      /\ (pixel_step = 1%nat ->
          forall x : nat, (x < Nx)%nat -> In x (xmax_index :: rest)).
Proof.
  intros Nx xmax step Hs Hx.
  destruct (pixel_range Nx xmax step) as [r|] eqn:E.
  2:{ unfold pixel_range in E. destruct (step =? 0)%nat eqn:E0;
        [apply Nat.eqb_eq in E0; lia | discriminate E]. }
  assert (Hhd : exists rest, r = xmax :: rest).
  { unfold pixel_range in E. destruct (step =? 0)%nat; [discriminate|].
    inversion E as [Er]. clear E Er.
    assert (Hup : exists up', arange_up xmax Nx step = xmax :: up').
    { unfold arange_up.
      destruct ((Nx - xmax + step - 1) / step)%nat eqn:En.
      - exfalso. assert (C : (0 < (Nx - xmax + step - 1) / step)%nat)
          by (apply arange_count; lia). lia.
      - simpl. rewrite Nat.add_0_r. eexists. reflexivity. }
    destruct Hup as [up' Eup]. rewrite Eup.
    destruct (not_in (Nx - 1) (xmax :: up'));
      match goal with
      | |- context [not_in 0 ?l] => destruct (not_in 0 l)
      end; simpl; eexists; reflexivity. }
  destruct Hhd as [rest Er]. subst r. exists rest.
  split; [reflexivity|].
  pose proof (fun x => pixel_range_In Nx xmax step _ x E) as HIn.
  split; [apply HIn; auto|]. split; [apply HIn; auto|]. split.
  - apply Forall_forall. intros x Hin. apply HIn in Hin.
    destruct Hin as [H | [H | [H | H]]]; try lia.
    + apply arange_up_In in H; [|exact Hs]. destruct H as [i [_ H]]. exact H.
    + apply arange_down_In in H; [|exact Hs]. destruct H as [i [H _]]. lia.
  - intros H1 x Hlt. subst step. apply HIn.
    destruct (Nat.le_gt_cases xmax x) as [C|C].
    + left. apply arange_up_In; [lia|]. exists (x - xmax)%nat. lia.
    + right. right. left. apply arange_down_In; [lia|]. exists (xmax - x)%nat. lia.
Qed.

Lemma fitted_columns_reach_both_edges_witness :
  exists rest : list nat,
    pixel_range 12 4 5 = Some (4%nat :: rest)
    /\ In 0%nat (4%nat :: rest) /\ In 11%nat (4%nat :: rest).
Proof.
  destruct (fitted_columns_reach_both_edges 12 4 5) as [rest [E [H0 [H1 _]]]]; try lia.
  exists rest. repeat split; assumption.
Defined.

(* ------------------------------------------------------------------ *)
(** ** ChromaticPSF1D: the simulated spectrogram *)






(* ------------------------------------------------------------------ *)
(** ** The layout of the polynomial vector *)

Lemma find_y_mean_0_skips_x_mean (ks : list nat) (rest : list string) :
  forall k : Z,
    ChromaticPSFFitWorkspace.find_y_mean_0 (map (label "x_mean") ks ++ rest) k
    = ChromaticPSFFitWorkspace.find_y_mean_0 rest (k + Z.of_nat (List.length ks))%Z.
Proof.
  induction ks as [|a ks IH]; intro k.
  - simpl. f_equal. lia.
  - cbn [map app ChromaticPSFFitWorkspace.find_y_mean_0 List.length].
    assert (E : String.eqb (label "x_mean" a) "y_mean_0" = false) by reflexivity.
    rewrite E, IH. f_equal. lia.
Qed.

Lemma skipn_labels (p : string) (n : nat) (rest : list string) :
  skipn n (map (label p) (arange n) ++ rest) = rest.
Proof.
  assert (L : List.length (map (label p) (arange n)) = n)
    by (rewrite length_map; apply length_seq).
  rewrite skipn_app, L, Nat.sub_diag, skipn_all2 by lia. reflexivity.
Qed.

(** X14. For a chromatic PSF built by [__init__] on a PSF with the eight
    parameter names of MoffatGauss: the labels are the [Nx] amplitude labels
    followed by [deg + 1] labels for each of the six shape parameters and one
    for the saturation; [n_poly_params], the size of [poly_params], counts
    [deg + 1] entries more than there are labels; and the label ["y_mean_0"]
    is found at the index [deg + 1] of the input labels, that is at the place
    [Nx + deg + 1] of the vector. *)
Theorem polynomial_vector_layout :
  forall (psf0 : PSF_obj) (Nx Ny deg : nat) (saturation : Q),
    param_names psf0 = param_names (MoffatGauss.init None) ->
    exists labels : list string,
      poly_params_labels (ChromaticPSF.init psf0 Nx Ny deg saturation) = Some labels
      /\ List.length labels = (Nx + 6 * (deg + 1) + 1)%nat
      /\ n_poly_params (ChromaticPSF.init psf0 Nx Ny deg saturation)
         = Some (List.length labels + (deg + 1))%nat
      /\ ChromaticPSFFitWorkspace.y_mean_0_index (ChromaticPSF.init psf0 Nx Ny deg saturation)
         = Some (Z.of_nat (deg + 1))
      /\ nth_error labels (Nx + (deg + 1)) = Some "y_mean_0"%string.
Proof.
  intros psf0 Nx Ny deg saturation Hn.
  unfold ChromaticPSFFitWorkspace.y_mean_0_index, poly_params_labels, n_poly_params,
    ChromaticPSF.init.
  cbn [psf degrees table_len]. rewrite Hn.
  cbn -[label arange Nat.add Nat.mul].
  eexists. split; [reflexivity|].
  split; [|split; [|split]].
  - rewrite !length_app, !length_map. unfold arange. rewrite !length_seq. simpl. lia.
  - f_equal. rewrite !length_app, !length_map. unfold arange. rewrite !length_seq.
    simpl. lia.
  - f_equal. unfold ChromaticPSFFitWorkspace.input_labels.
    rewrite skipn_labels, find_y_mean_0_skips_x_mean.
    unfold arange. rewrite length_seq.
    replace (deg + 1)%nat with (S deg) by lia. reflexivity.
  - rewrite nth_error_app2; rewrite length_map; unfold arange; rewrite length_seq; [|lia].
    replace (Nx + (deg + 1) - Nx)%nat with (deg + 1)%nat by lia.
    rewrite nth_error_app2; rewrite length_map, length_seq; [|lia].
    rewrite Nat.sub_diag. replace (deg + 1)%nat with (S deg) by lia. reflexivity.
Qed.

Lemma polynomial_vector_layout_witness :
  exists labels : list string,
    poly_params_labels (ChromaticPSF1D.init 3 4 1 8000) = Some labels
    /\ List.length labels = 16%nat
    /\ n_poly_params (ChromaticPSF1D.init 3 4 1 8000) = Some (List.length labels + 2)%nat
    /\ ChromaticPSFFitWorkspace.y_mean_0_index (ChromaticPSF1D.init 3 4 1 8000) = Some 2%Z
    /\ nth_error labels 5 = Some "y_mean_0"%string.
Proof.
  exact (polynomial_vector_layout (MoffatGauss.init None) 3 4 1 8000 eq_refl).
Defined.

(* ------------------------------------------------------------------ *)
(** ** The background crop *)

Lemma skipn_set_nth_before (i a : nat) (v : Q) :
  forall l : list Q, (i < a)%nat -> skipn a (set_nth i v l) = skipn a l.
Proof.
  revert i. induction a as [|a IH]; intros i l H; [lia|].
  destruct l as [|h t]; [destruct i; reflexivity|].
  destruct i as [|i]; simpl; [reflexivity|]. apply IH. lia.
Qed.

Lemma skipn_set_nth_from (i a : nat) (v : Q) :
  forall l : list Q, (a <= i)%nat -> skipn a (set_nth i v l) = set_nth (i - a) v (skipn a l).
Proof.
  revert i. induction a as [|a IH]; intros i l H.
  - rewrite Nat.sub_0_r. reflexivity.
  - destruct i as [|i]; [lia|].
    destruct l as [|h t]; [simpl; destruct (i - a)%nat; reflexivity|].
    simpl. apply IH. lia.
Qed.

Lemma firstn_set_nth_beyond (i n : nat) (v : Q) :
  forall l : list Q, (n <= i)%nat -> firstn n (set_nth i v l) = firstn n l.
Proof.
  revert i. induction n as [|n IH]; intros i l H; [reflexivity|].
  destruct i as [|i]; [lia|].
  destruct l as [|h t]; [reflexivity|].
  simpl. f_equal. apply IH. lia.
Qed.

(** A slice that does not hold the written index is unchanged. *)
Lemma slice_set_nth_outside (a n i : nat) (v : Q) (l : list Q) :
  (i < a \/ a + n <= i)%nat -> slice a n (set_nth i v l) = slice a n l.
Proof.
  intros [H|H]; unfold slice.
  - rewrite skipn_set_nth_before by exact H. reflexivity.
  - rewrite skipn_set_nth_from by lia. apply firstn_set_nth_beyond. lia.
Qed.

(** A slice that starts at the written index changes in its first entry. *)
Lemma slice_set_nth_first (a n : nat) (v : Q) (l : list Q) :
  (a < List.length l)%nat ->
  exists cs : list Q,
    slice a (n + 1) l = nth a l 0 :: cs /\ slice a (n + 1) (set_nth a v l) = v :: cs.
Proof.
  intro H. unfold slice. rewrite skipn_set_nth_from, Nat.sub_diag by lia.
  assert (E : skipn a l = nth a l 0 :: skipn (S a) l).
  { clear v. revert l H. induction a as [|a IH]; intros [|h t] H; simpl in H; try lia.
    - reflexivity.
    - apply (IH t). lia. }
  rewrite E. replace (n + 1)%nat with (S n) by lia.
  exists (firstn n (skipn (S a) l)). split; reflexivity.
Qed.

(** The first coefficient of a Legendre series is its constant term. *)
Lemma clenshaw_last (x b a : Q) :
  forall (rest : list Q) (c0 c1 : Q),
    fst (clenshaw x (rest ++ [a - b]) c0 c1) == fst (clenshaw x (rest ++ [a]) c0 c1) - b
    /\ snd (clenshaw x (rest ++ [a - b]) c0 c1) = snd (clenshaw x (rest ++ [a]) c0 c1).
Proof.
  induction rest as [|r rest IH]; intros c0 c1.
  - cbn -[Qeq Qplus Qmult Qminus Qdiv Qnat]. split; [ring | reflexivity].
  - cbn [app clenshaw List.length]. rewrite !length_app. cbn [List.length]. apply IH.
Qed.

Lemma series_constant_term (x a b : Q) (cs : list Q) :
  series x ((a - b) :: cs) == series x (a :: cs) - b.
Proof.
  unfold series, legval1. cbn [rev].
  destruct (rev cs) as [|c1 [|c0 rest]].
  - cbn -[Qeq Qplus Qmult Qminus]. ring.
  - cbn -[Qeq Qplus Qmult Qminus]. ring.
  - cbn [app].
    destruct (clenshaw_last x b a rest c0 c1) as [H1 H2].
    destruct (clenshaw x (rest ++ [a - b]) c0 c1) as [p q].
    destruct (clenshaw x (rest ++ [a]) c0 c1) as [p' q'].
    cbn [fst snd] in H1, H2. subst q'. rewrite H1. ring.
Qed.

Lemma legval_constant_term (pixels cs : list Q) (a b : Q) :
  Forall2 Qeq (legval_or_zeros (List.length pixels) pixels ((a - b) :: cs))
              (map (fun v => v - b) (legval_or_zeros (List.length pixels) pixels (a :: cs))).
Proof.
  unfold legval_or_zeros, legval. generalize (List.length pixels). intros _.
  induction pixels as [|x pixels IH]; [constructor|].
  cbn [map]. constructor; [|exact IH].
  apply (series_constant_term x a b cs).
Qed.

Lemma expanded_column_set_nth_outside (degs : degrees_dict) (len : nat)
      (pixels poly : list Q) (name : string) (off i : nat) (v : Q) :
  (len <= i)%nat -> (len < List.length poly)%nat ->
  (forall d, dict_get degs name = Some d ->
             (i < len + off \/ len + off + (d + 1) <= i)%nat) ->
  expanded_column degs len pixels (set_nth i v poly) name off
  = expanded_column degs len pixels poly name off.
Proof.
  intros Hi Hl Hd. unfold expanded_column. rewrite set_nth_length.
  apply Nat.ltb_lt in Hl. rewrite Hl.
  destruct (String.eqb name "amplitude").
  - apply firstn_set_nth_beyond. exact Hi.
  - destruct (dict_get degs name) as [d|]; [|reflexivity].
    rewrite slice_set_nth_outside by (apply Hd; reflexivity). reflexivity.
Qed.

Lemma expanded_column_set_nth_first (degs : degrees_dict) (pixels poly : list Q)
      (name : string) (off d : nat) (b : Q) :
  String.eqb name "amplitude" = false -> dict_get degs name = Some d ->
  (List.length pixels + off < List.length poly)%nat ->
  Forall2 Qeq
    (expanded_column degs (List.length pixels) pixels
       (set_nth (List.length pixels + off)
                (nth (List.length pixels + off) poly 0 - b) poly) name off)
    (map (fun v => v - b)
         (expanded_column degs (List.length pixels) pixels poly name off)).
Proof.
  intros Ea Ed Hl. unfold expanded_column. rewrite set_nth_length, Ea, Ed.
  assert (Hlt : (List.length pixels <? List.length poly)%nat = true)
    by (apply Nat.ltb_lt; lia).
  rewrite Hlt.
  destruct (slice_set_nth_first (List.length pixels + off) d
              (nth (List.length pixels + off) poly 0 - b) poly Hl) as [cs [E1 E2]].
  rewrite E1, E2. apply legval_constant_term.
Qed.

Lemma clip_hard_compat (b : bounds) (x y : Q) :
  x == y -> ChromaticPSF.clip_hard b x == ChromaticPSF.clip_hard b y.
Proof.
  intro H. destruct b as [[|lo] [|hi]]; unfold ChromaticPSF.clip_hard, Qgt_bool;
    cbn [fst snd]; cmp; lra.
Qed.

Lemma map_clip_hard_compat (b : bounds) (l m : list Q) :
  Forall2 Qeq l m ->
  Forall2 Qeq (map (ChromaticPSF.clip_hard b) l) (map (ChromaticPSF.clip_hard b) m).
Proof.
  induction 1 as [|x y l m Hxy _ IH]; simpl; constructor;
    [apply clip_hard_compat; exact Hxy | exact IH].
Qed.

Lemma set_nth_app_right (l m : list Q) (j : nat) (v : Q) :
  set_nth (List.length l + j) v (l ++ m) = l ++ set_nth j v m.
Proof.
  induction l as [|h l IH]; simpl; [reflexivity|]. rewrite IH. reflexivity.
Qed.

(** Writing back what was taken from an entry restores the vector. *)
Lemma set_nth_restores (k : nat) (b : Q) :
  forall l : list Q,
    Forall2 Qeq (set_nth k (nth k (set_nth k (nth k l 0 - b) l) 0 + b)
                         (set_nth k (nth k l 0 - b) l)) l.
Proof.
  induction k as [|k IH]; intros [|h t]; simpl; try constructor.
  - ring.
  - apply Forall2_Qeq_refl.
  - reflexivity.
  - apply IH.
Qed.

Lemma py_index_in_range (len k : nat) :
  (k < len)%nat -> py_index len (Z.of_nat k) = Some k.
Proof.
  intro H. unfold py_index.
  assert (E : ((0 <=? Z.of_nat k) && (Z.of_nat k <? Z.of_nat len))%Z = true).
  { apply andb_true_iff. split; [apply Z.leb_le | apply Z.ltb_lt]; lia. }
  rewrite E, Znat.Nat2Z.id. reflexivity.
Qed.

Lemma MoffatGauss_y_mean_0_index (psf0 : PSF_obj) (Nx Ny deg : nat) (saturation : Q) :
  param_names psf0 = param_names (MoffatGauss.init None) ->
  ChromaticPSFFitWorkspace.y_mean_0_index (ChromaticPSF.init psf0 Nx Ny deg saturation)
  = Some (Z.of_nat (deg + 1)).
Proof.
  intro Hn.
  unfold ChromaticPSFFitWorkspace.y_mean_0_index, poly_params_labels, ChromaticPSF.init.
  cbn [psf degrees table_len]. rewrite Hn.
  cbn -[label arange Nat.add Nat.mul].
  f_equal. unfold ChromaticPSFFitWorkspace.input_labels.
  rewrite skipn_labels, find_y_mean_0_skips_x_mean.
  unfold arange. rewrite length_seq.
  replace (deg + 1)%nat with (S deg) by lia. reflexivity.
Qed.

(** X15. The first lines of [simulate] and the line of [fit_chromatic_psf]
    that undoes them.  For a chromatic PSF built by [__init__] on a PSF with
    the parameter names of MoffatGauss and one hard bound pair per name, and
    shape parameters that fill the vector after the [Nx] amplitudes and hold
    a coefficient for every parameter: [simulate] subtracts [bgd_width] at
    the place [Nx + deg + 1] of the vector; the table it then expands is the
    table of the vector as written, with [bgd_width] taken from every
    entry of the [y_mean] column and from no other column, before the hard
    bounds are applied.  At its end [simulate] replaces the first [Nx]
    entries by the [Nx] amplitudes it solved and stores the vector; the
    addition made by [fit_chromatic_psf] at the same place of the stored
    vector gives the solved amplitudes followed by the shape parameters as
    they were passed. *)
Theorem background_crop_lowers_y_mean :
  forall (psf0 : PSF_obj) (Nx Ny deg : nat) (saturation : Q) (bgd_width : Z)
         (poly_params shape_params amplitude_params : list Q) (apply_bounds : bool),
    param_names psf0 = param_names (MoffatGauss.init None) ->
    (List.length (param_names psf0) <= List.length (bounds_hard psf0))%nat ->
    List.length poly_params = (Nx + List.length shape_params)%nat ->
    (6 * (deg + 1) < List.length shape_params)%nat ->
    List.length amplitude_params = Nx ->
    let self := ChromaticPSF.init psf0 Nx Ny deg saturation in
    let written := firstn Nx poly_params ++ shape_params in
    exists (cropped stored restored : list Q) (raw t : table),
      ChromaticPSFFitWorkspace.y_mean_0_index self = Some (Z.of_nat (deg + 1))
      /\ ChromaticPSFFitWorkspace.cropped_poly_params
           Nx (Z.of_nat (deg + 1)) bgd_width poly_params shape_params = Some cropped
      /\ ChromaticPSF.from_poly_params_to_profile_params self written false = Some raw
      /\ ChromaticPSF.from_poly_params_to_profile_params self cropped apply_bounds = Some t
      /\ List.length t = List.length raw
      /\ (forall (k : nat) (b : bounds) (col : list Q),
             nth_error (bounds_hard psf0) k = Some b -> nth_error raw k = Some col ->
             exists col' : list Q,
               nth_error t k = Some col'
               /\ Forall2 Qeq col'
                    (returned_column apply_bounds b (crop_column bgd_width k col)))
      /\ ChromaticPSFFitWorkspace.stored_poly_params Nx cropped amplitude_params
         = Some stored
      /\ ChromaticPSFFitWorkspace.restored_poly_params
           Nx (Z.of_nat (deg + 1)) bgd_width stored = Some restored
      /\ Forall2 Qeq restored (amplitude_params ++ shape_params).
Proof.
  intros psf0 Nx Ny deg saturation bgd_width poly shape amps apply_bounds Hn Hh Hl H6 La
         self u.
  set (b := inject_Z bgd_width).
  set (i := (Nx + (deg + 1))%nat).
  assert (Lu : List.length u = (Nx + List.length shape)%nat).
  { unfold u. rewrite length_app, length_firstn. lia. }
  assert (Hi : (i < List.length u)%nat) by (unfold i; lia).
  assert (Ez : (Z.of_nat Nx + Z.of_nat (deg + 1))%Z = Z.of_nat i)
    by (unfold i; lia).
  set (cropped := set_nth i (nth i u 0 - b) u).
  assert (Lc : List.length cropped = List.length u) by apply set_nth_length.
  assert (Ec : ChromaticPSFFitWorkspace.cropped_poly_params
                 Nx (Z.of_nat (deg + 1)) bgd_width poly shape = Some cropped).
  { unfold ChromaticPSFFitWorkspace.cropped_poly_params, assign_from.
    replace (List.length shape =? List.length poly - Nx)%nat with true
      by (symmetry; apply Nat.eqb_eq; lia).
    cbn [bind]. fold u. unfold isub. rewrite Ez, (py_index_in_range _ _ Hi).
    reflexivity. }
  (* the vector that the workspace stores, and the addition *)
  set (j := (deg + 1)%nat).
  set (shape' := set_nth j (nth j shape 0 - b) shape).
  assert (Lf : List.length (firstn Nx poly) = Nx) by (rewrite length_firstn; lia).
  assert (Ecs : cropped = firstn Nx poly ++ shape').
  { assert (G : forall l : list Q,
               List.length l = Nx ->
               set_nth (Nx + (deg + 1)) (nth (Nx + (deg + 1)) (l ++ shape) 0 - b) (l ++ shape)
               = l ++ set_nth (deg + 1) (nth (deg + 1) shape 0 - b) shape).
    { intros l Ll. rewrite <- Ll. rewrite app_nth2_plus. apply set_nth_app_right. }
    exact (G _ Lf). }
  set (stored := amps ++ shape').
  assert (Est : ChromaticPSFFitWorkspace.stored_poly_params Nx cropped amps = Some stored).
  { unfold ChromaticPSFFitWorkspace.stored_poly_params, assign_upto.
    replace (List.length amps =? Nat.min Nx (List.length cropped))%nat with true
      by (symmetry; apply Nat.eqb_eq; lia).
    rewrite Ecs, skipn_app, Lf, Nat.sub_diag, skipn_all2 by lia. reflexivity. }
  assert (Lst : List.length stored = List.length u).
  { unfold stored, shape'. rewrite length_app, set_nth_length. lia. }
  assert (Er : ChromaticPSFFitWorkspace.restored_poly_params
                 Nx (Z.of_nat (deg + 1)) bgd_width stored
               = Some (amps ++ set_nth j (nth j shape' 0 + b) shape')).
  { unfold ChromaticPSFFitWorkspace.restored_poly_params, iadd.
    rewrite Ez, Lst, (py_index_in_range _ _ Hi). cbn [bind]. f_equal.
    unfold stored, i. fold j. rewrite <- La.
    rewrite app_nth2_plus. apply set_nth_app_right. }
  assert (Fr : Forall2 Qeq (amps ++ set_nth j (nth j shape' 0 + b) shape') (amps ++ shape)).
  { apply Forall2_app; [apply Forall2_Qeq_refl | apply set_nth_restores]. }
  (* the names and the degrees of the object *)
  set (names := param_names (MoffatGauss.init None)).
  assert (Hnames : param_names (psf self) = names) by exact Hn.
  set (degs := ChromaticPSF.set_polynomial_degrees names deg).
  assert (Hdegs : degrees self = degs).
  { unfold self, ChromaticPSF.init, degs. cbn [degrees]. rewrite Hn. reflexivity. }
  assert (Hlen : table_len self = Nx) by reflexivity.
  assert (Hc : forall n, (Nx + 6 * (deg + 1) < n)%nat ->
                         has_coefficients degs Nx n 0 names = true).
  { intros n Hlt. cbn -[Nat.add Nat.mul Nat.leb Nat.ltb].
    repeat (apply andb_true_iff; split); try reflexivity;
      apply orb_true_iff; right; apply Nat.ltb_lt; lia. }
  destruct (expand_columns_some degs Nx (linspace Nx) u names 0
              (Hc (List.length u) ltac:(lia)))
    as [raw Eraw].
  destruct (expand_columns_some degs Nx (linspace Nx) cropped names 0
              (Hc (List.length cropped) ltac:(lia)))
    as [rawc Erawc].
  destruct (expand_columns_nth _ _ _ _ _ _ _ Eraw) as [Lraw Nraw].
  destruct (expand_columns_nth _ _ _ _ _ _ _ Erawc) as [Lrawc Nrawc].
  (* the columns before the hard bounds *)
  assert (Hcols : forall (k : nat) (col : list Q),
             nth_error raw k = Some col ->
             exists colc : list Q,
               nth_error rawc k = Some colc
               /\ Forall2 Qeq colc (crop_column bgd_width k col)).
  { intros k col Hk.
    assert (Hk8 : (k < 8)%nat).
    { change 8%nat with (List.length names). rewrite <- Lraw.
      apply nth_error_Some. congruence. }
    assert (Hlu : (Nx < List.length u)%nat) by lia.
    destruct k as [|[|[|[|[|[|[|[|k]]]]]]]]; try lia;
      (match goal with
       | |- context [nth_error rawc ?k] =>
           pose proof (Nraw k _ eq_refl) as Hr; pose proof (Nrawc k _ eq_refl) as Hrc
       end);
      rewrite Hk in Hr; inversion Hr as [Hcol]; rewrite Hrc; eexists;
      (split; [reflexivity|]); clear Hr Hrc.
    3: { (* y_mean *)
      unfold crop_column. cbn [Nat.eqb].
      assert (Eo : (0 + coefficient_offset degs names 2 = deg + 1)%nat)
        by (cbn -[Nat.add]; lia).
      rewrite Eo. unfold cropped, i.
      pose proof (expanded_column_set_nth_first degs (linspace Nx) u "y_mean"
                    (deg + 1) deg b eq_refl eq_refl) as Hs.
      rewrite linspace_length in Hs. rewrite ?Nat.add_0_r. apply Hs. fold i. exact Hi. }
    all: unfold crop_column; cbn [Nat.eqb]; unfold cropped;
      rewrite expanded_column_set_nth_outside;
      [apply Forall2_Qeq_refl | unfold i; lia | exact Hlu |];
      intros d Hd; cbn -[Nat.add] in Hd; inversion Hd; subst d;
      cbn -[Nat.add]; unfold i; lia. }
  exists cropped, stored, (amps ++ set_nth j (nth j shape' 0 + b) shape'), raw.
  assert (Eraw' : ChromaticPSF.from_poly_params_to_profile_params self u false = Some raw).
  { unfold ChromaticPSF.from_poly_params_to_profile_params.
    rewrite Hlen, Hdegs, Hnames. cbn zeta. rewrite Eraw. reflexivity. }
  destruct apply_bounds.
  - destruct (clip_columns_nth names (bounds_hard psf0) rawc Lrawc
                ltac:(unfold names; rewrite <- Hn; exact Hh)) as [t [Et Nt]].
    exists t.
    split; [apply MoffatGauss_y_mean_0_index; exact Hn|].
    split; [exact Ec|]. split; [exact Eraw'|].
    split.
    { unfold ChromaticPSF.from_poly_params_to_profile_params.
      rewrite Hlen, Hdegs, Hnames. cbn zeta. rewrite Erawc. exact Et. }
    split; [rewrite (clip_columns_length _ _ _ _ Et); congruence|].
    split.
    { intros k bd col Hb Hk. destruct (Hcols k col Hk) as [colc [Ek Fk]].
      exists (map (ChromaticPSF.clip_hard bd) colc).
      split; [apply (Nt k bd colc Hb Ek)|].
      unfold returned_column. apply map_clip_hard_compat. exact Fk. }
    split; [exact Est|]. split; [exact Er | exact Fr].
  - exists rawc.
    split; [apply MoffatGauss_y_mean_0_index; exact Hn|].
    split; [exact Ec|]. split; [exact Eraw'|].
    split.
    { unfold ChromaticPSF.from_poly_params_to_profile_params.
      rewrite Hlen, Hdegs, Hnames. cbn zeta. rewrite Erawc. reflexivity. }
    split; [congruence|].
    split.
    { intros k bd col _ Hk. destruct (Hcols k col Hk) as [colc [Ek Fk]].
      exists colc. split; [exact Ek | exact Fk]. }
    split; [exact Est|]. split; [exact Er | exact Fr].
Qed.

Lemma background_crop_lowers_y_mean_witness :
  exists cropped stored restored : list Q,
    ChromaticPSFFitWorkspace.cropped_poly_params 2 1 3
      [0; 0; 0; 0; 0; 0; 0; 0; 0; 0] [0; 5; 3; 2; 1; 2; 8000; 0] = Some cropped
    /\ ChromaticPSFFitWorkspace.stored_poly_params 2 cropped [7; 9] = Some stored
    /\ ChromaticPSFFitWorkspace.restored_poly_params 2 1 3 stored = Some restored
    /\ Forall2 Qeq restored [7; 9; 0; 5; 3; 2; 1; 2; 8000; 0].
Proof.
  destruct (background_crop_lowers_y_mean (MoffatGauss.init None) 2 4 0 8000 3
              [0; 0; 0; 0; 0; 0; 0; 0; 0; 0] [0; 5; 3; 2; 1; 2; 8000; 0] [7; 9] true eq_refl)
    as [cropped [stored [restored [raw [t [_ [Ec [_ [_ [_ [_ [Es [Er Fr]]]]]]]]]]]]];
    [simpl; lia | reflexivity | simpl; lia | reflexivity |].
  exists cropped, stored, restored.
  split; [exact Ec|]. split; [exact Es|]. split; [exact Er | exact Fr].
Defined.
